(** * Configuration resolution of the rate limiter (package [ratelimiter])

    A shallow embedding of the configuration code of the rate limiter:
    [getDefaultConfiguration], [setConfiguration], the [configure*] helpers,
    [getCustomTokenList] and [GetRateLimiterRateConfigForToken].

    Go pointers to [RateLimiterRateConfig] are indices into a heap of cells,
    so that aliasing between the IP policy, the Token policy and the
    custom-token entries is kept; a panic is an explicit result. *)

From Stdlib Require Import ZArith String Ascii List Lia DecimalString DecimalPos DecimalZ.
From stdpp Require Import base option list gmap strings fin_maps fin_sets.

Local Open Scope string_scope.
Local Open Scope Z_scope.
Local Open Scope list_scope.

(** ** Environment variable names *)

Definition envKeyIPMaxRequestsPerSecond : string := "RATE_LIMITER_IP_MAX_REQUESTS".
Definition envKeyIPBlockTimeMilliseconds : string := "RATE_LIMITER_IP_BLOCK_TIME".
Definition envKeyTokenMaxRequestsPerSecond : string := "RATE_LIMITER_TOKEN_MAX_REQUESTS".
Definition envKeyTokenBlockTimeMilliseconds : string := "RATE_LIMITER_TOKEN_BLOCK_TIME".
Definition envKeyDebug : string := "RATE_LIMITER_DEBUG".
Definition envUseRedis : string := "RATE_LIMITER_USE_REDIS".
Definition envRedisAddress : string := "RATE_LIMITER_REDIS_ADDRESS".
Definition envRedisPassword : string := "RATE_LIMITER_REDIS_PASSWORD".
Definition envRedisDB : string := "RATE_LIMITER_REDIS_DB".

(** ** The process environment

    The environment is a finite map from variable names to values.
    [os.Environ] lists it as strings of the form name=value, in no
    particular order. *)

Abbreviation Env := (gmap string string).

Definition Environ (env : Env) : list string :=
  (fun kv => fst kv +:+ "=" +:+ snd kv) <$> map_to_list env.

(** [strings.SplitN(env, "=", 2)[0]]: the text before the first equals sign,
    the whole string when there is none. *)
Fixpoint SplitN_first (s : string) : string :=
  match s with
  | EmptyString => EmptyString
  | String a s' => if Ascii.eqb a "="%char then EmptyString
                   else String a (SplitN_first s')
  end.

(** Whether a character occurs in a text. *)
Fixpoint has_char (c : ascii) (s : string) : bool :=
  match s with
  | EmptyString => false
  | String a s' => Ascii.eqb a c || has_char c s'
  end.

(** The names of the variables hold no equals sign, as the operating system
    has it. *)
Definition env_names_ok (env : Env) : Prop :=
  ∀ name, is_Some (env !! name) → has_char "="%char name = false.

(** ** Environment readers *)

Definition int64_min : Z := - 2 ^ 63.
Definition int64_max : Z := 2 ^ 63 - 1.

(** Modelled from the spec: the integer parse behind [getInt64Env], which is
    not among the sources; section 4.2 has it parse the text as a base-10
    signed integer.  An optional sign is followed by one or more decimal
    digits, and the value has to fit the 64-bit result type. *)
Definition parseInt64 (s : string) : option Z :=
  let digits :=
    match s with
    | String a s' =>
        if Ascii.eqb a "+"%char
        then option_map Decimal.Pos (NilZero.uint_of_string s')
        else NilZero.int_of_string s
    | EmptyString => None
    end in
  match digits with
  | Some d =>
      let z := Z.of_int d in
      if (int64_min <=? z) && (z <=? int64_max) then Some z else None
  | None => None
  end.

Definition lower_ascii (a : ascii) : ascii :=
  let n := nat_of_ascii a in
  if (Nat.leb 65 n && Nat.leb n 90)%bool then ascii_of_nat (n + 32)%nat else a.

Fixpoint lower (s : string) : string :=
  match s with
  | EmptyString => EmptyString
  | String a s' => String (lower_ascii a) (lower s')
  end.

(** Modelled from the spec: the boolean parse behind [getBoolEnv], which is
    not among the sources; section 4.2 has it recognise truthy and falsy
    literals without regard to case and report anything else as absent. *)
Definition parseBool (s : string) : option bool :=
  let l := lower s in
  if (String.eqb l "true" || String.eqb l "t" || String.eqb l "1")%bool then Some true
  else if (String.eqb l "false" || String.eqb l "f" || String.eqb l "0")%bool then Some false
  else None.

(** Modelled from the spec: [getBoolEnv], [getInt64Env] and [getStringEnv]
    are not among the sources; section 4.2 has each return a value with a
    presence flag, absence and malformed text both reporting not present, and
    a variable set to the empty string reporting present.  The pair
    (value, ok) is an option here. *)
Definition getBoolEnv (env : Env) (key : string) : option bool :=
  match env !! key with
  | Some v => parseBool v
  | None => None
  end.

Definition getInt64Env (env : Env) (key : string) : option Z :=
  match env !! key with
  | Some v => parseInt64 v
  | None => None
  end.

Definition getStringEnv (env : Env) (key : string) : option string :=
  env !! key.

(** ** The pattern of custom-token variables

    [envKeyRegex] anchors both ends to the text: the literal
    RATE_LIMITER_TOKEN_, a greedy group of any characters, an underscore,
    and MAX_REQUESTS or BLOCK_TIME.  The dot of the group
    matches every character but a line feed, so a name matches when it is
    the prefix, a text without line feed, and one of the two suffixes; the
    first group is the text in between. *)

Fixpoint strip_prefix (p s : string) : option string :=
  match p with
  | EmptyString => Some s
  | String a p' =>
      match s with
      | EmptyString => None
      | String b s' => if Ascii.eqb a b then strip_prefix p' s' else None
      end
  end.

Fixpoint strip_suffix (suf s : string) : option string :=
  if String.eqb s suf then Some EmptyString
  else match s with
       | EmptyString => None
       | String a s' => option_map (String a) (strip_suffix suf s')
       end.

Definition line_feed : ascii := ascii_of_nat 10%nat.

Definition customTokenPrefix : string := "RATE_LIMITER_TOKEN_".
Definition maxRequestsSuffix : string := "_MAX_REQUESTS".
Definition blockTimeSuffix : string := "_BLOCK_TIME".

(** [envKeyRegex.FindStringSubmatch(envKey)[1]] when [envKeyRegex.Match]
    holds, [None] when it does not. *)
Definition envKeyRegex_submatch (envKey : string) : option string :=
  match strip_prefix customTokenPrefix envKey with
  | Some rest =>
      let group :=
        match strip_suffix maxRequestsSuffix rest with
        | Some id => Some id
        | None => strip_suffix blockTimeSuffix rest
        end in
      match group with
      | Some id => if has_char line_feed id then None else Some id
      | None => None
      end
  | None => None
  end.

(** [getCustomTokenList]: the identifiers are collected in a set
    ([foundTokens]) and returned as a list in the set's own order, which
    stands for the unspecified order of a [range] over a Go map. *)
Definition getCustomTokenList (env : Env) : list string :=
  let foundTokens : gset string :=
    foldl (fun found e =>
             let envKey := SplitN_first e in
             match envKeyRegex_submatch envKey with
             | Some id => {[ id ]} ∪ found
             | None => found
             end) ∅ (Environ env) in
  elements foundTokens.

(** ** Data model *)

(** The two fields are [int64] in the source; they are only ever copied,
    never computed with, so no wrap-around arises. *)
Record RateLimiterRateConfig := mkRate {
  MaxRequestsPerSecond : Z;
  BlockTimeMilliseconds : Z
}.

(** A [*RateLimiterRateConfig] that is not nil: the index of a heap cell. *)
Abbreviation ptr := nat.

(** A Go map value: the nil map reads as empty and panics on assignment. *)
Inductive GoMap :=
  | NilMap
  | Map (m : gmap string (option ptr)).

(** Modelled from the spec: the packages [adapter] and [responsewriter] are
    not among the sources; sections 4.1, 4.5 and 4.6 have the provider
    construct a new instance at each call and the selectors compare
    instances by identity.  An instance carries the identity it was given
    at construction. *)
Inductive StorageKind :=
  | MemoryStorage
  | RedisStorage (address password : string) (db : Z)
  | CallerStorage.

Record RateLimitStorageAdapter := mkAdapter {
  adapter_id : nat;
  adapter_kind : StorageKind
}.

Inductive WriterKind :=
  | DefaultWriter
  | CallerWriter.

Record RateLimiterResponseWriter := mkWriter {
  writer_id : nat;
  writer_kind : WriterKind
}.

Record RateLimiterConfig := mkConfig {
  IP : option ptr;
  Token : option ptr;
  CustomTokens : option GoMap;
  StorageAdapter : option RateLimitStorageAdapter;
  ResponseWriter : option RateLimiterResponseWriter;
  Debug : bool;
  DisableEnvs : bool
}.

Definition with_IP (v : option ptr) (c : RateLimiterConfig) : RateLimiterConfig :=
  mkConfig v (Token c) (CustomTokens c) (StorageAdapter c) (ResponseWriter c)
           (Debug c) (DisableEnvs c).
Definition with_Token (v : option ptr) (c : RateLimiterConfig) : RateLimiterConfig :=
  mkConfig (IP c) v (CustomTokens c) (StorageAdapter c) (ResponseWriter c)
           (Debug c) (DisableEnvs c).
Definition with_CustomTokens (v : option GoMap) (c : RateLimiterConfig) : RateLimiterConfig :=
  mkConfig (IP c) (Token c) v (StorageAdapter c) (ResponseWriter c)
           (Debug c) (DisableEnvs c).
Definition with_StorageAdapter (v : option RateLimitStorageAdapter)
    (c : RateLimiterConfig) : RateLimiterConfig :=
  mkConfig (IP c) (Token c) (CustomTokens c) v (ResponseWriter c)
           (Debug c) (DisableEnvs c).
Definition with_ResponseWriter (v : option RateLimiterResponseWriter)
    (c : RateLimiterConfig) : RateLimiterConfig :=
  mkConfig (IP c) (Token c) (CustomTokens c) (StorageAdapter c) v
           (Debug c) (DisableEnvs c).
Definition with_Debug (v : bool) (c : RateLimiterConfig) : RateLimiterConfig :=
  mkConfig (IP c) (Token c) (CustomTokens c) (StorageAdapter c) (ResponseWriter c)
           v (DisableEnvs c).

(** What [json.Marshal] sees of a configuration: the cells behind the
    pointers.  The adapter and the writer are left out by their tags. *)
Record ConfigValues := mkValues {
  v_ip : option RateLimiterRateConfig;
  v_token : option RateLimiterRateConfig;
  v_tokens : option (gmap string (option RateLimiterRateConfig));
  v_debug : bool;
  v_disableEnvs : bool
}.

(** ** Program state, panics and the monad of the embedding *)

Inductive TraceArg :=
  | ArgString (s : string)
  | ArgInt (z : Z)
  | ArgJSON (v : ConfigValues).

(** A trace line: the format string and its arguments. *)
Record TraceLine := mkLine {
  line_format : string;
  line_args : list TraceArg
}.

Record State := mkState {
  heap : list RateLimiterRateConfig;   (* the cells allocated so far *)
  instances : nat;                     (* adapters and writers constructed so far *)
  trace : list TraceLine               (* trace lines, latest first *)
}.

Inductive PanicValue :=
  | NilPointerDereference
  | NilMapAssignment
  | PanicMessage (msg : string).

Inductive Result (A : Type) :=
  | Ok (a : A)
  | Panic (v : PanicValue).
Arguments Ok {A} a.
Arguments Panic {A} v.

Definition M (A : Type) : Type := State -> Result (A * State).

Definition ret {A} (a : A) : M A := fun st => Ok (a, st).

Definition bind {A B} (m : M A) (k : A -> M B) : M B :=
  fun st => match m st with
            | Ok (a, st') => k a st'
            | Panic v => Panic v
            end.

Definition panic {A} (v : PanicValue) : M A := fun _ => Panic v.

Notation "'let!' x ':=' e 'in' k" := (bind e (fun x => k))
  (at level 10, x name, e at level 100, k at level 200).
Notation "e ';;;' k" := (bind e (fun _ => k))
  (at level 100, k at level 200, right associativity).

(** [&RateLimiterRateConfig{...}]: a new cell at the end of the heap. *)
Definition new (c : RateLimiterRateConfig) : M ptr :=
  fun st => Ok (length (heap st),
                mkState (heap st ++ [c]) (instances st) (trace st)).

(** Reading through a pointer. *)
Definition load (p : option ptr) : M RateLimiterRateConfig :=
  fun st => match p with
            | Some i => match heap st !! i with
                        | Some c => Ok (c, st)
                        | None => Panic NilPointerDereference
                        end
            | None => Panic NilPointerDereference
            end.

(** Assigning to a field through a pointer. *)
Definition store (p : option ptr)
    (f : RateLimiterRateConfig -> RateLimiterRateConfig) : M unit :=
  fun st => match p with
            | Some i => match heap st !! i with
                        | Some c => Ok (tt, mkState (<[ i := f c ]> (heap st))
                                                    (instances st) (trace st))
                        | None => Panic NilPointerDereference
                        end
            | None => Panic NilPointerDereference
            end.

Definition set_MaxRequestsPerSecond (v : Z) (c : RateLimiterRateConfig) :=
  mkRate v (BlockTimeMilliseconds c).
Definition set_BlockTimeMilliseconds (v : Z) (c : RateLimiterRateConfig) :=
  mkRate (MaxRequestsPerSecond c) v.

Definition fresh_instance : M nat :=
  fun st => Ok (instances st, mkState (heap st) (S (instances st)) (trace st)).

Definition NewRateLimitMemoryStorageAdapter : M RateLimitStorageAdapter :=
  let! i := fresh_instance in ret (mkAdapter i MemoryStorage).

Definition NewRateLimitRedisStorageAdapter (address password : string) (db : Z)
    : M RateLimitStorageAdapter :=
  let! i := fresh_instance in ret (mkAdapter i (RedisStorage address password db)).

Definition NewRateLimiterDefaultResponseWriter : M RateLimiterResponseWriter :=
  let! i := fresh_instance in ret (mkWriter i DefaultWriter).

(** Comparison of interface values: the same instance. *)
Definition same_adapter (a b : option RateLimitStorageAdapter) : bool :=
  match a, b with
  | Some x, Some y => Nat.eqb (adapter_id x) (adapter_id y)
  | None, None => true
  | _, _ => false
  end.

Definition same_writer (a b : option RateLimiterResponseWriter) : bool :=
  match a, b with
  | Some x, Some y => Nat.eqb (writer_id x) (writer_id y)
  | None, None => true
  | _, _ => false
  end.

(** The values a configuration denotes in a heap. *)
Definition cell (h : list RateLimiterRateConfig) (p : option ptr)
    : option RateLimiterRateConfig :=
  match p with
  | Some i => h !! i
  | None => None
  end.

Definition map_values (h : list RateLimiterRateConfig) (g : GoMap)
    : gmap string (option RateLimiterRateConfig) :=
  match g with
  | NilMap => ∅
  | Map m => cell h <$> m
  end.

Definition values (h : list RateLimiterRateConfig) (c : RateLimiterConfig)
    : ConfigValues :=
  mkValues (cell h (IP c)) (cell h (Token c))
           (map_values h <$> CustomTokens c) (Debug c) (DisableEnvs c).

(** The double quote character of the format strings. *)
Definition quote : string := String (ascii_of_nat 34%nat) EmptyString.

(** Modelled from the spec: [DebugPrintfWithoutKey] is not among the
    sources; section 4.7 has it emit one trace line when the debug gate of
    the configuration is enabled at the time of the call. *)
Definition DebugPrintfWithoutKey (config : RateLimiterConfig) (format : string)
    (args : list TraceArg) : M unit :=
  fun st => if Debug config
            then Ok (tt, mkState (heap st) (instances st)
                                 (mkLine format args :: trace st))
            else Ok (tt, st).

(** [json.Marshal(config)]: the fields of the configuration are integers,
    booleans and a map with string keys, for which marshalling does not
    fail; the error is always nil. *)
Definition json_Marshal (config : RateLimiterConfig) : M ConfigValues :=
  fun st => Ok (values (heap st) config, st).

(** ** The operations of the source *)

Definition is_nil (p : option ptr) : bool :=
  match p with
  | None => true
  | Some _ => false
  end.

(** The two-valued index expression on the map behind [config.CustomTokens]:
    the entry and whether the key is present.  A nil map reads as empty. *)
Definition map_index (config : RateLimiterConfig) (key : string)
    : M (option ptr * bool) :=
  match CustomTokens config with
  | None => panic NilPointerDereference
  | Some NilMap => ret (None, false)
  | Some (Map m) =>
      match m !! key with
      | Some value => ret (value, true)
      | None => ret (None, false)
      end
  end.

Definition GetRateLimiterRateConfigForToken (c : RateLimiterConfig) (token : string)
    : M (option ptr * bool) :=
  let! found := map_index c token in
  let '(customTokenConfig, ok) := found in
  if ok then ret (customTokenConfig, true)
  else ret (Token c, false).

Definition getDefaultConfiguration : M RateLimiterConfig :=
  let! ip := new (mkRate 100 1000) in
  let! token := new (mkRate 200 500) in
  let! storageAdapter := NewRateLimitMemoryStorageAdapter in
  let! responseWriter := NewRateLimiterDefaultResponseWriter in
  ret (mkConfig (Some ip) (Some token) (Some (Map ∅))
                (Some storageAdapter) (Some responseWriter) false false).

Definition configureIP (env : Env) (config defaultConfiguration : RateLimiterConfig)
    : M RateLimiterConfig :=
  let config := match IP config with
                | None => with_IP (IP defaultConfiguration) config
                | Some _ => config
                end in
  if negb (DisableEnvs config) then
    match getInt64Env env envKeyIPMaxRequestsPerSecond with
    | Some mrps =>
        store (IP config) (set_MaxRequestsPerSecond mrps) ;;;
        DebugPrintfWithoutKey config "using env %s"
          [ArgString envKeyIPMaxRequestsPerSecond]
    | None => ret tt
    end ;;;
    match getInt64Env env envKeyIPBlockTimeMilliseconds with
    | Some bt =>
        store (IP config) (set_BlockTimeMilliseconds bt) ;;;
        DebugPrintfWithoutKey config "using env %s"
          [ArgString envKeyIPBlockTimeMilliseconds]
    | None => ret tt
    end ;;;
    ret config
  else ret config.

Definition configureToken (env : Env) (config defaultConfiguration : RateLimiterConfig)
    : M RateLimiterConfig :=
  let config := match Token config with
                | None => with_Token (Token defaultConfiguration) config
                | Some _ => config
                end in
  if negb (DisableEnvs config) then
    match getInt64Env env envKeyTokenMaxRequestsPerSecond with
    | Some mrps =>
        store (Token config) (set_MaxRequestsPerSecond mrps) ;;;
        DebugPrintfWithoutKey config "using env %s"
          [ArgString envKeyTokenMaxRequestsPerSecond]
    | None => ret tt
    end ;;;
    match getInt64Env env envKeyTokenBlockTimeMilliseconds with
    | Some bt =>
        store (Token config) (set_BlockTimeMilliseconds bt) ;;;
        DebugPrintfWithoutKey config "using env %s"
          [ArgString envKeyTokenBlockTimeMilliseconds]
    | None => ret tt
    end ;;;
    ret config
  else ret config.

(** Assignment of [value] at [key] in the map behind [config.CustomTokens]. *)
Definition map_assign (key : string) (value : option ptr) (config : RateLimiterConfig)
    : M RateLimiterConfig :=
  match CustomTokens config with
  | None => panic NilPointerDereference
  | Some NilMap => panic NilMapAssignment
  | Some (Map m) => ret (with_CustomTokens (Some (Map (<[ key := value ]> m))) config)
  end.

Definition configureCustomToken (env : Env)
    (config defaultConfiguration : RateLimiterConfig) (customToken : string)
    : M RateLimiterConfig :=
  DebugPrintfWithoutKey config ("configuring custom token " +:+ quote +:+ "%s" +:+ quote)
    [ArgString customToken] ;;;
  let maxRequestsPerSecondEnvKey :=
    "RATE_LIMITER_TOKEN_" +:+ customToken +:+ "_MAX_REQUESTS" in
  let! maxRequestsPerSecond :=
    match getInt64Env env maxRequestsPerSecondEnvKey with
    | Some v => ret v
    | None =>
        let! token := load (Token config) in
        let defaultValue := MaxRequestsPerSecond token in
        DebugPrintfWithoutKey config ("env " +:+ quote +:+ "%s" +:+ quote +:+ " not found: using default value %d")
          [ArgString maxRequestsPerSecondEnvKey; ArgInt defaultValue] ;;;
        ret defaultValue
    end in
  let blockTimeMillisecondEnvKey :=
    "RATE_LIMITER_TOKEN_" +:+ customToken +:+ "_BLOCK_TIME" in
  let! blockTimeMilliseconds :=
    match getInt64Env env blockTimeMillisecondEnvKey with
    | Some v => ret v
    | None =>
        let! token := load (Token config) in
        let defaultValue := BlockTimeMilliseconds token in
        DebugPrintfWithoutKey config ("env " +:+ quote +:+ "%s" +:+ quote +:+ " not found: using default value %d")
          [ArgString blockTimeMillisecondEnvKey; ArgInt defaultValue] ;;;
        ret defaultValue
    end in
  let! p := new (mkRate maxRequestsPerSecond blockTimeMilliseconds) in
  map_assign customToken (Some p) config.

(** A [for ... range] loop whose body updates the configuration. *)
Fixpoint forEach {A S : Type} (l : list A) (body : S -> A -> M S) (s : S) : M S :=
  match l with
  | [] => ret s
  | x :: l' => let! s' := body s x in forEach l' body s'
  end.

(** The keys a [range] over the map behind [config.CustomTokens] visits. *)
Definition range_keys (config : RateLimiterConfig) : M (list string) :=
  match CustomTokens config with
  | None => panic NilPointerDereference
  | Some NilMap => ret []
  | Some (Map m) => ret ((map_to_list m).*1)
  end.

(** The body of the first loop of [configureCustomTokens]. *)
Definition completeCustomToken (config : RateLimiterConfig) (key : string)
    : M RateLimiterConfig :=
  let! found := map_index config key in
  let '(value, ok) := found in
  if negb ok || is_nil value
  then map_assign key (Token config) config
  else ret config.

Definition configureCustomTokens (env : Env)
    (config defaultConfiguration : RateLimiterConfig) : M RateLimiterConfig :=
  let config := match CustomTokens config with
                | None => with_CustomTokens (CustomTokens defaultConfiguration) config
                | Some _ => config
                end in
  let! keys := range_keys config in
  let! config := forEach keys completeCustomToken config in
  let customTokens := getCustomTokenList env in
  forEach customTokens
    (fun config customToken =>
       configureCustomToken env config defaultConfiguration customToken)
    config.

Definition configureRedisStorageAdapter (env : Env) (config : RateLimiterConfig)
    : M RateLimiterConfig :=
  DebugPrintfWithoutKey config "using StorageAdapter Redis" [] ;;;
  let! redisAddress :=
    match getStringEnv env envRedisAddress with
    | Some a => ret a
    | None =>
        panic (PanicMessage
                 (envRedisAddress +:+
                  " env is required when using redis adapter with env configuration"))
    end in
  let redisPassword :=
    match getStringEnv env envRedisPassword with
    | Some v => v
    | None => ""
    end in
  let redisDB :=
    match getInt64Env env envRedisDB with
    | Some v => v
    | None => 0
    end in
  let! a := NewRateLimitRedisStorageAdapter redisAddress redisPassword redisDB in
  ret (with_StorageAdapter (Some a) config).

Definition configureStorageAdapter (env : Env)
    (config defaultConfiguration : RateLimiterConfig) : M RateLimiterConfig :=
  let config := match StorageAdapter config with
                | None => with_StorageAdapter (StorageAdapter defaultConfiguration) config
                | Some _ => config
                end in
  match getBoolEnv env envUseRedis with
  | Some true => configureRedisStorageAdapter env config
  | _ =>
      if negb (same_adapter (StorageAdapter config) (StorageAdapter defaultConfiguration))
      then DebugPrintfWithoutKey config "using StorageAdapter Custom" [] ;;; ret config
      else DebugPrintfWithoutKey config "using StorageAdapter Default" [] ;;; ret config
  end.

Definition configureResponseWriter (config defaultConfiguration : RateLimiterConfig)
    : M RateLimiterConfig :=
  let config := match ResponseWriter config with
                | None => with_ResponseWriter (ResponseWriter defaultConfiguration) config
                | Some _ => config
                end in
  if negb (same_writer (ResponseWriter config) (ResponseWriter defaultConfiguration))
  then DebugPrintfWithoutKey config "using ResponseWriter Custom" [] ;;; ret config
  else DebugPrintfWithoutKey config "using ResponseWriter Default" [] ;;; ret config.

(** [setConfiguration]: the argument is [None] for a nil pointer.  The
    configuration is updated in place in the source; here the updated record
    is passed along.  When the argument is nil the configuration and the
    default are one object, which the code never reads through the default
    after writing through the configuration, so two records are exact. *)
Definition setConfiguration (env : Env) (config : option RateLimiterConfig)
    : M RateLimiterConfig :=
  let! defaultConfiguration := getDefaultConfiguration in
  let config := match config with
                | None => defaultConfiguration
                | Some c => c
                end in
  let! config :=
    if negb (DisableEnvs config) then
      match getBoolEnv env envKeyDebug with
      | Some debug =>
          let config := with_Debug debug config in
          DebugPrintfWithoutKey config "using env %s" [ArgString envKeyDebug] ;;;
          ret config
      | None => ret config
      end
    else ret config in
  let! config := configureIP env config defaultConfiguration in
  let! config := configureToken env config defaultConfiguration in
  let! config := configureCustomTokens env config defaultConfiguration in
  let! config := configureStorageAdapter env config defaultConfiguration in
  let! config := configureResponseWriter config defaultConfiguration in
  (if Debug config then
     let! jsonConfiguration := json_Marshal config in
     DebugPrintfWithoutKey config "using configuration: %s" [ArgJSON jsonConfiguration]
   else ret tt) ;;;
  ret config.

(** ** Closed forms used by the proofs *)

(** A policy whose fields come from two environment variables, each falling
    back to the field of [c]. *)
Definition envRate (env : Env) (maxKey blockKey : string) (c : RateLimiterRateConfig)
    : RateLimiterRateConfig :=
  mkRate (default (MaxRequestsPerSecond c) (getInt64Env env maxKey))
         (default (BlockTimeMilliseconds c) (getInt64Env env blockKey)).

(** The policy that [configureCustomToken] builds for an identifier, from
    the Token policy [token]. *)
Definition customRate (env : Env) (customToken : string) (token : RateLimiterRateConfig)
    : RateLimiterRateConfig :=
  envRate env ("RATE_LIMITER_TOKEN_" +:+ customToken +:+ "_MAX_REQUESTS")
              ("RATE_LIMITER_TOKEN_" +:+ customToken +:+ "_BLOCK_TIME") token.

(** A pointer is nil or refers to one of the [n] cells of the heap. *)
Definition ptr_ok (n : nat) (p : option ptr) : Prop :=
  match p with
  | Some i => (i < n)%nat
  | None => True
  end.

(** Every entry of a map is nil or refers to one of the [n] cells. *)
Definition map_ok (n : nat) (g : GoMap) : Prop :=
  match g with
  | NilMap => True
  | Map m => map_Forall (fun _ p => ptr_ok n p) m
  end.

(** The pointers of a configuration refer to the [n] cells of the heap. *)
Definition config_ok (n : nat) (c : RateLimiterConfig) : Prop :=
  ptr_ok n (IP c) ∧ ptr_ok n (Token c) ∧
  match CustomTokens c with
  | Some g => map_ok n g
  | None => True
  end.

(** The configuration that the caller hands over refers to allocated cells
    only.  Every Go value is of this kind: a pointer that is not nil refers
    to an object that exists, so the cells that [getDefaultConfiguration]
    and [configureCustomToken] allocate are new to the caller. *)
Definition caller_ok (st : State) (config : option RateLimiterConfig) : Prop :=
  match config with
  | Some c => config_ok (length (heap st)) c
  | None => True
  end.

(** The body of the loop of [getCustomTokenList]. *)
Definition found_step (found : gset string) (e : string) : gset string :=
  match envKeyRegex_submatch (SplitN_first e) with
  | Some id => {[ id ]} ∪ found
  | None => found
  end.

(** [m] returns [a] from [st], leaving the heap [h] and [n] instances; the
    trace is left open. *)
Definition runs {A} (m : M A) (st : State) (a : A)
    (h : list RateLimiterRateConfig) (n : nat) : Prop :=
  ∃ tr, m st = Ok (a, mkState h n tr).

(** The heap after the guarded assignments of [configureIP] or
    [configureToken] through the pointer [i]. *)
Definition overrides (env : Env) (disable : bool) (maxKey blockKey : string)
    (i : ptr) (h : list RateLimiterRateConfig) : list RateLimiterRateConfig :=
  if disable then h else alter (envRate env maxKey blockKey) i h.

(** A field that is nil takes the default. *)
Definition or_default {A} (x d : option A) : option A :=
  match x with
  | Some _ => x
  | None => d
  end.

(** The first loop: an entry that is nil becomes the Token pointer. *)
Definition complete (token : option ptr) (m : gmap string (option ptr))
    : gmap string (option ptr) :=
  (fun value => or_default value token) <$> m.

(** The second loop over the discovered identifiers: each gets the next new
    cell. *)
Fixpoint discovered (l : list string) (n : nat) (m : gmap string (option ptr))
    : gmap string (option ptr) :=
  match l with
  | [] => m
  | customToken :: l' => discovered l' (S n) (<[ customToken := Some n ]> m)
  end.

(** One step of the first loop, on the map. *)
Definition complete_step (token : option ptr) (m : gmap string (option ptr))
    (key : string) : gmap string (option ptr) :=
  match m !! key with
  | Some (Some _) => m
  | _ => <[ key := token ]> m
  end.

(** The entry of a key that the first loop has visited. *)
Definition completed (token : option ptr) (o : option (option ptr))
    : option (option ptr) :=
  match o with
  | Some (Some p) => Some (Some p)
  | _ => Some token
  end.

(** The map after both loops of [configureCustomTokens]. *)
Definition custom_phase (l : list string) (n : nat) (token : option ptr) (g : GoMap)
    : GoMap :=
  match g with
  | NilMap => NilMap
  | Map m => Map (discovered l n (complete token m))
  end.

(** The value of the panic of [configureRedisStorageAdapter]. *)
Definition redis_message : string :=
  envRedisAddress +:+ " env is required when using redis adapter with env configuration".

(** The test [ok && useRedis] of [configureStorageAdapter]. *)
Definition use_redis (env : Env) : bool :=
  match getBoolEnv env envUseRedis with
  | Some true => true
  | _ => false
  end.

(** The adapter that [configureRedisStorageAdapter] constructs. *)
Definition redis_adapter (env : Env) (n : nat) (address : string)
    : RateLimitStorageAdapter :=
  mkAdapter n (RedisStorage address
                 (default "" (getStringEnv env envRedisPassword))
                 (default 0 (getInt64Env env envRedisDB))).

(** *** The result of a resolution

    The definitions below name the parts of the configuration and of the
    heap that a resolution returns; [runs_setConfiguration] proves that
    [setConfiguration] returns them. *)

(** The two cells of [getDefaultConfiguration]. *)
Definition default_cells : list RateLimiterRateConfig :=
  [mkRate 100 1000; mkRate 200 500].

(** What [getDefaultConfiguration] returns from [st]. *)
Definition default_configuration (st : State) : RateLimiterConfig :=
  mkConfig (Some (length (heap st))) (Some (S (length (heap st)))) (Some (Map ∅))
           (Some (mkAdapter (instances st) MemoryStorage))
           (Some (mkWriter (S (instances st)) DefaultWriter)) false false.

(** The configuration that [setConfiguration] works on. *)
Definition effective (config : option RateLimiterConfig) (st : State)
    : RateLimiterConfig :=
  default (default_configuration st) config.

Definition resolved_debug (env : Env) (c : RateLimiterConfig) : bool :=
  if DisableEnvs c then Debug c else default (Debug c) (getBoolEnv env envKeyDebug).

Definition resolved_ip (config : option RateLimiterConfig) (st : State) : ptr :=
  default (length (heap st)) (IP (effective config st)).

Definition resolved_token (config : option RateLimiterConfig) (st : State) : ptr :=
  default (S (length (heap st))) (Token (effective config st)).

(** The heap after the IP and Token phases. *)
Definition rates_heap (env : Env) (config : option RateLimiterConfig) (st : State)
    : list RateLimiterRateConfig :=
  overrides env (DisableEnvs (effective config st))
    envKeyTokenMaxRequestsPerSecond envKeyTokenBlockTimeMilliseconds
    (resolved_token config st)
    (overrides env (DisableEnvs (effective config st))
       envKeyIPMaxRequestsPerSecond envKeyIPBlockTimeMilliseconds
       (resolved_ip config st) (heap st ++ default_cells)).

(** The resolved Token policy. *)
Definition token_cell (env : Env) (config : option RateLimiterConfig) (st : State)
    : RateLimiterRateConfig :=
  default (mkRate 0 0) (rates_heap env config st !! resolved_token config st).

(** The map that the custom-token phase starts from. *)
Definition caller_map (config : option RateLimiterConfig) (st : State) : GoMap :=
  default (Map ∅) (CustomTokens (effective config st)).

Definition resolved_map (env : Env) (config : option RateLimiterConfig) (st : State)
    : GoMap :=
  custom_phase (getCustomTokenList env) (length (rates_heap env config st))
    (Some (resolved_token config st)) (caller_map config st).

(** The heap that a resolution leaves: the cells of the discovered
    identifiers follow those of the IP and Token phases. *)
Definition resolved_heap (env : Env) (config : option RateLimiterConfig) (st : State)
    : list RateLimiterRateConfig :=
  rates_heap env config st ++
  ((fun k => customRate env k (token_cell env config st)) <$> getCustomTokenList env).

Definition resolved_adapter (env : Env) (config : option RateLimiterConfig) (st : State)
    : option RateLimitStorageAdapter :=
  if use_redis env
  then Some (redis_adapter env (S (S (instances st)))
               (default "" (getStringEnv env envRedisAddress)))
  else or_default (StorageAdapter (effective config st))
                  (StorageAdapter (default_configuration st)).

Definition resolved_writer (config : option RateLimiterConfig) (st : State)
    : option RateLimiterResponseWriter :=
  or_default (ResponseWriter (effective config st))
             (ResponseWriter (default_configuration st)).

Definition resolved_instances (env : Env) (st : State) : nat :=
  if use_redis env then S (S (S (instances st))) else S (S (instances st)).

(** The configuration that a resolution returns. *)
Definition resolved (env : Env) (config : option RateLimiterConfig) (st : State)
    : RateLimiterConfig :=
  mkConfig (Some (resolved_ip config st)) (Some (resolved_token config st))
           (Some (resolved_map env config st))
           (resolved_adapter env config st) (resolved_writer config st)
           (resolved_debug env (effective config st))
           (DisableEnvs (effective config st)).

(** The two ways in which resolution panics. *)
Definition nil_map_assignment (env : Env) (config : option RateLimiterConfig)
    (st : State) : Prop :=
  caller_map config st = NilMap ∧ getCustomTokenList env ≠ [].

Definition redis_address_missing (env : Env) : Prop :=
  use_redis env = true ∧ getStringEnv env envRedisAddress = None.

(** The configuration after the debug, IP and Token phases. *)
Definition rates_config (env : Env) (config : option RateLimiterConfig) (st : State)
    : RateLimiterConfig :=
  with_Token (Some (resolved_token config st))
    (with_IP (Some (resolved_ip config st))
       (with_Debug (resolved_debug env (effective config st)) (effective config st))).

(** What is left to run after the Token phase. *)
Definition after_rates (env : Env) (config2 defaultConfiguration : RateLimiterConfig)
    : M RateLimiterConfig :=
  let! config := configureCustomTokens env config2 defaultConfiguration in
  let! config := configureStorageAdapter env config defaultConfiguration in
  let! config := configureResponseWriter config defaultConfiguration in
  (if Debug config then
     let! jsonConfiguration := json_Marshal config in
     DebugPrintfWithoutKey config "using configuration: %s" [ArgJSON jsonConfiguration]
   else ret tt) ;;;
  ret config.

(** The fields that the custom-token phase does not assign are kept, and a
    mapping that is present stays present. *)
Definition keeps (c c' : RateLimiterConfig) : Prop :=
  IP c' = IP c ∧ Token c' = Token c ∧
  StorageAdapter c' = StorageAdapter c ∧ ResponseWriter c' = ResponseWriter c ∧
  (is_Some (CustomTokens c) → is_Some (CustomTokens c')).

(** ** Conditions of the theorems *)

Definition env_ABC_max : string := "RATE_LIMITER_TOKEN_ABC_MAX_REQUESTS".
Definition env_XYZ_block : string := "RATE_LIMITER_TOKEN_XYZ_BLOCK_TIME".

(** The entry of a key in a map, [None] when the key is not in it. *)
Definition entry (g : GoMap) (token : string) : option (option ptr) :=
  match g with
  | NilMap => None
  | Map m => m !! token
  end.

(** A caller that leaves the environment enabled and gives no IP policy;
    the absent configuration is such a caller. *)
Definition no_ip_policy (config : option RateLimiterConfig) : Prop :=
  match config with
  | Some c => DisableEnvs c = false ∧ IP c = None
  | None => True
  end.

(** The decimal text of an integer. *)
Definition formatInt (z : Z) : string := NilZero.string_of_int (Z.to_int z).

(** The only variables of the environment that the pattern accepts are
    those of [names]. *)
Definition only_custom_token_variables (env : Env) (names : list string) : Prop :=
  ∀ name, is_Some (env !! name) → is_Some (envKeyRegex_submatch name) → name ∈ names.

(** A caller that leaves the environment enabled and gives no custom-token
    entry: no map or an empty one; the absent configuration is such a
    caller. *)
Definition no_custom_entries (config : option RateLimiterConfig) : Prop :=
  match config with
  | Some c => DisableEnvs c = false ∧
              (CustomTokens c = None ∨ CustomTokens c = Some (Map ∅))
  | None => True
  end.

(** ** Sample inputs *)

Definition empty_state : State := mkState [] 0 [].

Definition sample_config : RateLimiterConfig :=
  mkConfig (Some 0%nat) (Some 1%nat)
           (Some (Map {[ "ABC" := Some 2%nat ]})) None None false false.

Definition sample_state : State :=
  mkState [mkRate 100 1000; mkRate 200 500; mkRate 50 500] 0 [].

(** A caller whose IP and Token policies are one object, with one entry
    sharing it and one entry left nil. *)
Definition shared_config : RateLimiterConfig :=
  mkConfig (Some 0%nat) (Some 0%nat)
           (Some (Map {[ "K" := None; "ABC" := Some 0%nat ]})) None None false false.

Definition shared_state : State := mkState [mkRate 10 20] 0 [].

Definition config_ABC_nil : RateLimiterConfig :=
  mkConfig None None (Some (Map {[ "ABC" := None ]})) None None false false.

(** A caller that sets [DisableEnvs] and nothing else. *)
Definition config_disabled : RateLimiterConfig :=
  mkConfig None None None None None false true.

Definition env_debug : Env :=
  {[ "RATE_LIMITER_DEBUG" := "true" ]}.

Definition env_redis : Env :=
  {[ "RATE_LIMITER_USE_REDIS" := "true" ]}.

Definition env_ip_max : Env :=
  {[ "RATE_LIMITER_IP_MAX_REQUESTS" := "42" ]}.

Definition env_ABC_XYZ : Env :=
  <[ "RATE_LIMITER_TOKEN_ABC_MAX_REQUESTS" := "50" ]>
  (<[ "RATE_LIMITER_TOKEN_XYZ_BLOCK_TIME" := "999" ]>
  (<[ "RATE_LIMITER_TOKEN_MAX_REQUESTS" := "300" ]> ∅)).

Definition env_ABC_only : Env :=
  {[ "RATE_LIMITER_TOKEN_ABC_MAX_REQUESTS" := "50" ]}.

Definition env_empty_id : Env :=
  {[ "RATE_LIMITER_TOKEN__MAX_REQUESTS" := "5" ]}.

Definition env_suffix_id : Env :=
  {[ "RATE_LIMITER_TOKEN_A_BLOCK_TIME_MAX_REQUESTS" := "5" ]}.

(** ** Further conditions and sample inputs *)

(** The last character of a text, [None] for the empty text. *)
Fixpoint last_char (s : string) : option ascii :=
  match s with
  | EmptyString => None
  | String a s' => match s' with
                   | EmptyString => Some a
                   | _ => last_char s'
                   end
  end.

(** The policy that a caller's pointer stands for before the resolution:
    the cell behind it, and the default [d] for a nil pointer. *)
Definition caller_rate (st : State) (p : option ptr) (d : RateLimiterRateConfig)
    (r : RateLimiterRateConfig) : Prop :=
  match p with
  | Some i => heap st !! i = Some r
  | None => r = d
  end.

(** The caller does not share one object between the IP and the Token
    policy. *)
Definition not_shared (c : RateLimiterConfig) : Prop :=
  ∀ p, IP c = Some p → Token c ≠ Some p.

(** A caller that gives its own policies and overrides some of them through
    the environment. *)
Definition own_config : RateLimiterConfig :=
  mkConfig (Some 0%nat) (Some 1%nat)
           (Some (Map {[ "ABC" := Some 2%nat; "OWN" := Some 3%nat ]}))
           (Some (mkAdapter 7 CallerStorage)) (Some (mkWriter 8 CallerWriter))
           true false.

Definition own_state : State :=
  mkState [mkRate 10 20; mkRate 30 40; mkRate 2000 100; mkRate 7 8] 9 [].

Definition env_overrides : Env :=
  <[ "RATE_LIMITER_IP_BLOCK_TIME" := "5000" ]>
  (<[ "RATE_LIMITER_TOKEN_MAX_REQUESTS" := "300" ]>
  (<[ "RATE_LIMITER_TOKEN_ABC_MAX_REQUESTS" := "50" ]>
  (<[ "RATE_LIMITER_DEBUG" := "false" ]> ∅))).

Definition env_redis_full : Env :=
  <[ "RATE_LIMITER_USE_REDIS" := "1" ]>
  (<[ "RATE_LIMITER_REDIS_ADDRESS" := "localhost:6379" ]>
  (<[ "RATE_LIMITER_REDIS_DB" := "3" ]> ∅)).

(** A caller whose map is a nil map. *)
Definition config_nil_map : RateLimiterConfig :=
  mkConfig None None (Some NilMap) None None false false.

(** The empty configuration literal. *)
Definition config_empty : RateLimiterConfig :=
  mkConfig None None None None None false false.

(** The prefix that the names of all variables of the package share. *)
Definition packagePrefix : string := "RATE_LIMITER_".

(** Two environments that hold the same variables of the package. *)
Definition same_package_variables (env1 env2 : Env) : Prop :=
  ∀ name, is_Some (strip_prefix packagePrefix name) → env1 !! name = env2 !! name.

(** The variables with a fixed name. *)
Definition fixed_names : list string :=
  [envKeyIPMaxRequestsPerSecond; envKeyIPBlockTimeMilliseconds;
   envKeyTokenMaxRequestsPerSecond; envKeyTokenBlockTimeMilliseconds;
   envKeyDebug; envUseRedis; envRedisAddress; envRedisPassword; envRedisDB].


(** A caller that sets no field but, possibly, [DisableEnvs]; the absent
    configuration is such a caller. *)
Definition no_fields (config : option RateLimiterConfig) : Prop :=
  match config with
  | Some c => IP c = None ∧ Token c = None ∧ CustomTokens c = None ∧
              StorageAdapter c = None ∧ ResponseWriter c = None ∧ Debug c = false
  | None => True
  end.

(** The environment holds no variable of the package. *)
Definition no_package_variables (env : Env) : Prop :=
  ∀ name, is_Some (env !! name) → strip_prefix packagePrefix name = None.

Definition env_other : Env :=
  <[ "PATH" := "/usr/bin" ]> (<[ "HOME" := "/root" ]> ∅).

(** ** Proof steps *)

(** Run the first action of a sequence whose outcome [H] gives. *)
Ltac run_first H :=
  let tr := fresh "tr" in
  destruct H as [tr H]; unfold bind at 1; cbv beta; rewrite H; cbv beta iota; clear H.

(** Run the first action of the goal by the lemma [lem]. *)
Ltac run_next lem :=
  lazymatch goal with
  | |- ex (fun x => bind ?m ?k ?s = @?r x) =>
      let H := fresh "Hrun" in
      eassert (runs m s _ _ _) as H by (eapply lem; done);
      run_first H
  end.

(** ** Strings *)

Lemma strip_prefix_Some p s r : strip_prefix p s = Some r → s = p +:+ r.
Proof.
  revert s; induction p as [|a p IHl]; intros s H; simpl in *.
  - by inversion H.
  - destruct s as [|b s]; [done|].
    destruct (Ascii.eqb_spec a b) as [->|]; [|done].
    by rewrite (IHl _ H).
Qed.

Lemma strip_suffix_unfold suf s :
  strip_suffix suf s =
  if String.eqb s suf then Some EmptyString
  else match s with
       | EmptyString => None
       | String a s' => option_map (String a) (strip_suffix suf s')
       end.
Proof. by destruct s. Qed.

Lemma strip_suffix_Some suf s r : strip_suffix suf s = Some r → s = r +:+ suf.
Proof.
  revert r; induction s as [|a s IHl]; intros r; rewrite strip_suffix_unfold.
  - destruct (String.eqb_spec EmptyString suf) as [<-|]; [|done]. by intros [= <-].
  - destruct (String.eqb_spec (String a s) suf) as [<-|]; [by intros [= <-]|].
    destruct (strip_suffix suf s) as [r'|] eqn:E; [|done].
    intros [= <-]. simpl. by rewrite (IHl r').
Qed.

Lemma SplitN_first_name name value :
  has_char "="%char name = false → SplitN_first (name +:+ "=" +:+ value) = name.
Proof.
  induction name as [|a name IHl]; simpl; [done|].
  intros [Ha Hn]%orb_false_elim. rewrite Ha. by rewrite IHl.
Qed.

(** What the pattern accepts. *)
Lemma envKeyRegex_submatch_Some envKey id :
  envKeyRegex_submatch envKey = Some id →
  has_char line_feed id = false ∧
  (envKey = customTokenPrefix +:+ id +:+ maxRequestsSuffix ∨
   envKey = customTokenPrefix +:+ id +:+ blockTimeSuffix).
Proof.
  unfold envKeyRegex_submatch.
  destruct (strip_prefix customTokenPrefix envKey) as [rest|] eqn:Hp; [|done].
  apply strip_prefix_Some in Hp.
  destruct (strip_suffix maxRequestsSuffix rest) as [i|] eqn:Hm.
  - apply strip_suffix_Some in Hm.
    destruct (has_char line_feed i) eqn:Hn; [done|].
    intros [= <-]. split; [done|]. left. by rewrite Hp, Hm.
  - destruct (strip_suffix blockTimeSuffix rest) as [i|] eqn:Hb; [|done].
    apply strip_suffix_Some in Hb.
    destruct (has_char line_feed i) eqn:Hn; [done|].
    intros [= <-]. split; [done|]. right. by rewrite Hp, Hb.
Qed.

(** ** The discoverer *)

Lemma elem_of_found id (l : list string) (acc : gset string) :
  id ∈ foldl found_step acc l ↔
  id ∈ acc ∨ ∃ e, e ∈ l ∧ envKeyRegex_submatch (SplitN_first e) = Some id.
Proof.
  revert acc; induction l as [|e l IHl]; intros acc; simpl.
  - split; [by left|]. intros [?|(e & He & _)]; [done|]. by apply elem_of_nil in He.
  - rewrite IHl. unfold found_step at 1. split.
    + intros [H|(e' & He' & Hm)].
      * destruct (envKeyRegex_submatch (SplitN_first e)) as [i|] eqn:E.
        -- apply elem_of_union in H as [H|H]; [|by left].
           apply elem_of_singleton in H as ->. right. exists e. split; [left|done].
        -- by left.
      * right. exists e'. split; [by right|done].
    + intros [H|(e' & He' & Hm)].
      * left. destruct (envKeyRegex_submatch (SplitN_first e)); [|done].
        apply elem_of_union. by right.
      * apply elem_of_cons in He' as [->|He'].
        -- left. rewrite Hm. apply elem_of_union. left. by apply elem_of_singleton.
        -- right. by exists e'.
Qed.

Lemma elem_of_getCustomTokenList env id :
  id ∈ getCustomTokenList env ↔
  ∃ e, e ∈ Environ env ∧ envKeyRegex_submatch (SplitN_first e) = Some id.
Proof.
  unfold getCustomTokenList. rewrite elem_of_elements.
  destruct (elem_of_found id (Environ env) ∅) as [H1 H2]. split.
  - intros H. destruct (H1 H) as [H'|H']; [|done]. by apply not_elem_of_empty in H'.
  - intros H. apply H2. by right.
Qed.

Lemma elem_of_Environ env e :
  e ∈ Environ env ↔ ∃ name value, env !! name = Some value ∧ e = name +:+ "=" +:+ value.
Proof.
  unfold Environ. rewrite list_elem_of_fmap. split.
  - intros ([name value] & -> & H). apply elem_of_map_to_list in H. by exists name, value.
  - intros (name & value & H & ->). exists (name, value). split; [done|].
    by apply elem_of_map_to_list.
Qed.

(** With well-formed names, the discovered identifiers are those of the
    variable names that the pattern accepts. *)
Lemma elem_of_getCustomTokenList_names env id :
  env_names_ok env →
  id ∈ getCustomTokenList env ↔
  ∃ name, is_Some (env !! name) ∧ envKeyRegex_submatch name = Some id.
Proof.
  intros Hok. rewrite elem_of_getCustomTokenList. split.
  - intros (e & (name & value & Hl & ->)%elem_of_Environ & Hm).
    rewrite SplitN_first_name in Hm by (apply Hok; eauto). eauto.
  - intros (name & [value Hl] & Hm). exists (name +:+ "=" +:+ value). split.
    + apply elem_of_Environ. eauto.
    + rewrite SplitN_first_name by (apply Hok; eauto). done.
Qed.

(** ** Running the monad *)

Lemma runs_ret {A} (a : A) st : runs (ret a) st a (heap st) (instances st).
Proof. exists (trace st). by destruct st. Qed.

Lemma runs_bind {A B} (m : M A) (k : A → M B) st a h n b h' n' :
  runs m st a h n →
  (∀ tr, runs (k a) (mkState h n tr) b h' n') →
  runs (bind m k) st b h' n'.
Proof.
  intros [tr Hm] Hk. destruct (Hk tr) as [tr' Hk'].
  exists tr'. unfold bind. by rewrite Hm.
Qed.

Lemma panics_bind {A B} (m : M A) (k : A → M B) st v :
  m st = Panic v → bind m k st = Panic v.
Proof. intros H. unfold bind. by rewrite H. Qed.

Lemma panics_bind_runs {A B} (m : M A) (k : A → M B) st a h n v :
  runs m st a h n →
  (∀ tr, k a (mkState h n tr) = Panic v) →
  bind m k st = Panic v.
Proof. intros [tr Hm] Hk. unfold bind. by rewrite Hm. Qed.

Lemma runs_inv {A} (m : M A) st a h n a' st' :
  runs m st a h n → m st = Ok (a', st') → a' = a ∧ heap st' = h ∧ instances st' = n.
Proof. intros [tr Hm] H. rewrite Hm in H. by inversion H. Qed.

Lemma runs_DebugPrintfWithoutKey config format args st :
  runs (DebugPrintfWithoutKey config format args) st tt (heap st) (instances st).
Proof.
  unfold runs, DebugPrintfWithoutKey. destruct st, (Debug config); simpl; eauto.
Qed.

Lemma runs_new c st :
  runs (new c) st (length (heap st)) (heap st ++ [c]) (instances st).
Proof. by exists (trace st). Qed.

Lemma runs_load i c st :
  heap st !! i = Some c → runs (load (Some i)) st c (heap st) (instances st).
Proof. intros H. exists (trace st). unfold load. rewrite H. by destruct st. Qed.

Lemma insert_alter_cell (h : list RateLimiterRateConfig) i c f :
  h !! i = Some c → <[ i := f c ]> h = alter f i h.
Proof.
  intros H. apply list_eq. intros j. destruct (decide (i = j)) as [<-|Hne].
  - rewrite list_lookup_alter_eq, H. simpl.
    apply list_lookup_insert_eq. apply lookup_lt_is_Some. eauto.
  - by rewrite list_lookup_insert_ne, list_lookup_alter_ne.
Qed.

Lemma runs_store i f st :
  (i < length (heap st))%nat →
  runs (store (Some i) f) st tt (alter f i (heap st)) (instances st).
Proof.
  intros [c H]%lookup_lt_is_Some. exists (trace st). unfold store. rewrite H.
  by rewrite (insert_alter_cell _ _ _ _ H).
Qed.

(** ** The IP and Token phases *)

Lemma envRate_cases env maxKey blockKey c :
  envRate env maxKey blockKey c =
  match getInt64Env env blockKey with
  | Some bt => set_BlockTimeMilliseconds bt
  | None => fun x => x
  end (match getInt64Env env maxKey with
       | Some mrps => set_MaxRequestsPerSecond mrps
       | None => fun x => x
       end c).
Proof.
  unfold envRate. destruct c.
  by destruct (getInt64Env env maxKey), (getInt64Env env blockKey).
Qed.

(** The two guarded assignments of [configureIP] and [configureToken]. *)
Lemma runs_env_overrides env config maxKey blockKey i st :
  (i < length (heap st))%nat →
  runs (match getInt64Env env maxKey with
        | Some mrps =>
            store (Some i) (set_MaxRequestsPerSecond mrps) ;;;
            DebugPrintfWithoutKey config "using env %s" [ArgString maxKey]
        | None => ret tt
        end ;;;
        match getInt64Env env blockKey with
        | Some bt =>
            store (Some i) (set_BlockTimeMilliseconds bt) ;;;
            DebugPrintfWithoutKey config "using env %s" [ArgString blockKey]
        | None => ret tt
        end ;;;
        ret config)
       st config (alter (envRate env maxKey blockKey) i (heap st)) (instances st).
Proof.
  intros Hi.
  assert (alter (envRate env maxKey blockKey) i (heap st) =
          alter (match getInt64Env env blockKey with
                 | Some bt => set_BlockTimeMilliseconds bt
                 | None => fun x => x
                 end) i
            (alter (match getInt64Env env maxKey with
                    | Some mrps => set_MaxRequestsPerSecond mrps
                    | None => fun x => x
                    end) i (heap st))) as ->.
  { rewrite list_alter_alter_eq. apply list_alter_ext; [|done].
    intros c _. apply envRate_cases. }
  apply (runs_bind _ _ _ tt
           (alter (match getInt64Env env maxKey with
                   | Some mrps => set_MaxRequestsPerSecond mrps
                   | None => fun x => x
                   end) i (heap st)) (instances st)).
  { destruct (getInt64Env env maxKey).
    - eapply runs_bind; [by apply runs_store|].
      intros tr. apply (runs_DebugPrintfWithoutKey _ _ _ (mkState _ _ _)).
    - rewrite list_alter_id by done. apply runs_ret. }
  intros tr.
  apply (runs_bind _ _ _ tt
           (alter (match getInt64Env env blockKey with
                   | Some bt => set_BlockTimeMilliseconds bt
                   | None => fun x => x
                   end) i
              (alter (match getInt64Env env maxKey with
                      | Some mrps => set_MaxRequestsPerSecond mrps
                      | None => fun x => x
                      end) i (heap st))) (instances st));
    [|intros tr'; apply (runs_ret _ (mkState _ _ _))].
  destruct (getInt64Env env blockKey).
  - eapply runs_bind.
    + apply (runs_store _ _ (mkState _ _ _)). simpl. by rewrite length_alter.
    + intros tr'. apply (runs_DebugPrintfWithoutKey _ _ _ (mkState _ _ _)).
  - rewrite (list_alter_id (fun x => x)) by done.
    apply (runs_ret _ (mkState _ _ _)).
Qed.

Lemma length_overrides env disable maxKey blockKey i h :
  length (overrides env disable maxKey blockKey i h) = length h.
Proof. unfold overrides. destruct disable; [done|]. apply length_alter. Qed.

Lemma runs_configureIP env config defaultConfiguration st i :
  or_default (IP config) (IP defaultConfiguration) = Some i →
  (i < length (heap st))%nat →
  runs (configureIP env config defaultConfiguration) st
       (with_IP (Some i) config)
       (overrides env (DisableEnvs config) envKeyIPMaxRequestsPerSecond
                  envKeyIPBlockTimeMilliseconds i (heap st))
       (instances st).
Proof.
  intros Hp Hi. unfold configureIP, overrides.
  destruct config as [ip tok ct sa rw dbg dis]; simpl in *.
  destruct ip as [p|]; simpl in *.
  - injection Hp as ->. destruct dis; simpl; [apply runs_ret|].
    by apply (runs_env_overrides env (mkConfig (Some i) tok ct sa rw dbg false)).
  - rewrite Hp. unfold with_IP; simpl. destruct dis; simpl; [apply runs_ret|].
    by apply (runs_env_overrides env (mkConfig (Some i) tok ct sa rw dbg false)).
Qed.

Lemma runs_configureToken env config defaultConfiguration st i :
  or_default (Token config) (Token defaultConfiguration) = Some i →
  (i < length (heap st))%nat →
  runs (configureToken env config defaultConfiguration) st
       (with_Token (Some i) config)
       (overrides env (DisableEnvs config) envKeyTokenMaxRequestsPerSecond
                  envKeyTokenBlockTimeMilliseconds i (heap st))
       (instances st).
Proof.
  intros Hp Hi. unfold configureToken, overrides.
  destruct config as [ip tok ct sa rw dbg dis]; simpl in *.
  destruct tok as [p|]; simpl in *.
  - injection Hp as ->. destruct dis; simpl; [apply runs_ret|].
    by apply (runs_env_overrides env (mkConfig ip (Some i) ct sa rw dbg false)).
  - rewrite Hp. unfold with_Token; simpl. destruct dis; simpl; [apply runs_ret|].
    by apply (runs_env_overrides env (mkConfig ip (Some i) ct sa rw dbg false)).
Qed.

(** ** The custom-token phase *)

Lemma runs_configureCustomToken env config defaultConfiguration customToken st m i t :
  CustomTokens config = Some (Map m) →
  Token config = Some i →
  heap st !! i = Some t →
  runs (configureCustomToken env config defaultConfiguration customToken) st
       (with_CustomTokens
          (Some (Map (<[ customToken := Some (length (heap st)) ]> m))) config)
       (heap st ++ [customRate env customToken t]) (instances st).
Proof.
  intros Hm Hi Ht. unfold configureCustomToken.
  eapply runs_bind; [apply runs_DebugPrintfWithoutKey|]. intros tr.
  apply (runs_bind _ _ _
           (default (MaxRequestsPerSecond t)
              (getInt64Env env
                 ("RATE_LIMITER_TOKEN_" +:+ customToken +:+ "_MAX_REQUESTS")))
           (heap st) (instances st)).
  { destruct (getInt64Env env _); simpl; [apply (runs_ret _ (mkState _ _ _))|].
    rewrite Hi. eapply runs_bind; [by apply (runs_load _ _ (mkState _ _ _))|].
    intros tr'. eapply runs_bind;
      [apply (runs_DebugPrintfWithoutKey _ _ _ (mkState _ _ _))|].
    intros tr''. apply (runs_ret _ (mkState _ _ _)). }
  intros tr1.
  apply (runs_bind _ _ _
           (default (BlockTimeMilliseconds t)
              (getInt64Env env
                 ("RATE_LIMITER_TOKEN_" +:+ customToken +:+ "_BLOCK_TIME")))
           (heap st) (instances st)).
  { destruct (getInt64Env env ("RATE_LIMITER_TOKEN_" +:+ customToken +:+ "_BLOCK_TIME"));
      simpl; [apply (runs_ret _ (mkState _ _ _))|].
    rewrite Hi. eapply runs_bind; [by apply (runs_load _ _ (mkState _ _ _))|].
    intros tr'. eapply runs_bind;
      [apply (runs_DebugPrintfWithoutKey _ _ _ (mkState _ _ _))|].
    intros tr''. apply (runs_ret _ (mkState _ _ _)). }
  intros tr2. eapply runs_bind; [apply (runs_new _ (mkState _ _ _))|].
  intros tr3. simpl. unfold map_assign. rewrite Hm.
  apply (runs_ret _ (mkState _ _ _)).
Qed.

Lemma with_CustomTokens_id config g :
  CustomTokens config = Some g → with_CustomTokens (Some g) config = config.
Proof. destruct config; simpl. by intros ->. Qed.

Lemma runs_discover env defaultConfiguration l :
  ∀ config st m i t,
    CustomTokens config = Some (Map m) →
    Token config = Some i →
    heap st !! i = Some t →
    runs (forEach l
            (fun config customToken =>
               configureCustomToken env config defaultConfiguration customToken)
            config) st
         (with_CustomTokens (Some (Map (discovered l (length (heap st)) m))) config)
         (heap st ++ ((fun k => customRate env k t) <$> l)) (instances st).
Proof.
  induction l as [|k l IHl]; intros config st m i t Hm Hi Ht; simpl.
  - rewrite app_nil_r, with_CustomTokens_id by done. apply runs_ret.
  - eapply runs_bind; [by eapply runs_configureCustomToken|].
    intros tr.
    pose proof (IHl (with_CustomTokens
                       (Some (Map (<[ k := Some (length (heap st)) ]> m))) config)
                    (mkState (heap st ++ [customRate env k t]) (instances st) tr)
                    _ i t eq_refl Hi) as H.
    simpl in H. rewrite <- app_assoc, length_app, Nat.add_1_r in H.
    apply H. by apply lookup_app_l_Some.
Qed.

Lemma panics_configureCustomToken_nil env config defaultConfiguration customToken st i t :
  CustomTokens config = Some NilMap →
  Token config = Some i →
  heap st !! i = Some t →
  configureCustomToken env config defaultConfiguration customToken st
  = Panic NilMapAssignment.
Proof.
  intros Hm Hi Ht. unfold configureCustomToken.
  eapply panics_bind_runs; [apply runs_DebugPrintfWithoutKey|]. intros tr.
  apply (panics_bind_runs _ _ _
           (default (MaxRequestsPerSecond t)
              (getInt64Env env
                 ("RATE_LIMITER_TOKEN_" +:+ customToken +:+ "_MAX_REQUESTS")))
           (heap st) (instances st)).
  { destruct (getInt64Env env _); simpl; [apply (runs_ret _ (mkState _ _ _))|].
    rewrite Hi. eapply runs_bind; [by apply (runs_load _ _ (mkState _ _ _))|].
    intros tr'. eapply runs_bind;
      [apply (runs_DebugPrintfWithoutKey _ _ _ (mkState _ _ _))|].
    intros tr''. apply (runs_ret _ (mkState _ _ _)). }
  intros tr1.
  apply (panics_bind_runs _ _ _
           (default (BlockTimeMilliseconds t)
              (getInt64Env env
                 ("RATE_LIMITER_TOKEN_" +:+ customToken +:+ "_BLOCK_TIME")))
           (heap st) (instances st)).
  { destruct (getInt64Env env ("RATE_LIMITER_TOKEN_" +:+ customToken +:+ "_BLOCK_TIME"));
      simpl; [apply (runs_ret _ (mkState _ _ _))|].
    rewrite Hi. eapply runs_bind; [by apply (runs_load _ _ (mkState _ _ _))|].
    intros tr'. eapply runs_bind;
      [apply (runs_DebugPrintfWithoutKey _ _ _ (mkState _ _ _))|].
    intros tr''. apply (runs_ret _ (mkState _ _ _)). }
  intros tr2. eapply panics_bind_runs; [apply (runs_new _ (mkState _ _ _))|].
  intros tr3. unfold map_assign. by rewrite Hm.
Qed.

Lemma completed_idemp token o :
  completed token (completed token o) = completed token o.
Proof. by destruct o as [[?|]|], token. Qed.

Lemma lookup_complete_step token m key k :
  complete_step token m key !! k =
  if decide (key = k) then completed token (m !! k) else m !! k.
Proof.
  unfold complete_step. destruct (decide (key = k)) as [Hk|Hk].
  - subst. destruct (m !! k) as [[p|]|] eqn:E; simpl.
    + done.
    + by rewrite lookup_insert_eq.
    + by rewrite lookup_insert_eq.
  - destruct (m !! key) as [[p|]|]; [done| |]; by rewrite lookup_insert_ne.
Qed.

Lemma lookup_foldl_complete_step token l :
  ∀ m k, foldl (complete_step token) m l !! k =
         if decide (k ∈ l) then completed token (m !! k) else m !! k.
Proof.
  induction l as [|x l IHl]; intros m k; simpl.
  - destruct (decide (k ∈ [])) as [H|H]; [by apply elem_of_nil in H|done].
  - rewrite IHl, lookup_complete_step.
    destruct (decide (x = k)) as [->|Hne].
    + rewrite completed_idemp.
      rewrite (decide_True (P := k ∈ k :: l)) by left.
      by case_decide.
    + destruct (decide (k ∈ l)) as [Hin|Hin].
      * by rewrite decide_True by by right.
      * rewrite decide_False; [done|].
        intros [->|?]%elem_of_cons; done.
Qed.

Lemma foldl_complete_step_keys token (m : gmap string (option ptr)) :
  foldl (complete_step token) m ((map_to_list m).*1) = complete token m.
Proof.
  apply map_eq. intros k. rewrite lookup_foldl_complete_step.
  unfold complete. rewrite lookup_fmap.
  destruct (m !! k) as [v|] eqn:E; simpl.
  - rewrite decide_True.
    + by destruct v.
    + apply list_elem_of_fmap. exists (k, v). split; [done|].
      by apply elem_of_map_to_list.
  - rewrite decide_False; [done|].
    intros ([k' v] & Hk & Hin)%list_elem_of_fmap. simpl in Hk. subst k'.
    apply elem_of_map_to_list in Hin. congruence.
Qed.

Lemma runs_complete l :
  ∀ config st m,
    CustomTokens config = Some (Map m) →
    runs (forEach l completeCustomToken config) st
         (with_CustomTokens
            (Some (Map (foldl (complete_step (Token config)) m l))) config)
         (heap st) (instances st).
Proof.
  induction l as [|k l IHl]; intros config st m Hm; simpl.
  - rewrite with_CustomTokens_id by done. apply runs_ret.
  - apply (runs_bind _ _ _
             (with_CustomTokens (Some (Map (complete_step (Token config) m k))) config)
             (heap st) (instances st)).
    + unfold completeCustomToken, map_index, complete_step. rewrite Hm.
      destruct (m !! k) as [[p|]|]; simpl.
      * unfold bind; simpl. rewrite with_CustomTokens_id by done. apply runs_ret.
      * unfold bind, ret, map_assign; simpl. rewrite Hm. apply runs_ret.
      * unfold bind, ret, map_assign; simpl. rewrite Hm. apply runs_ret.
    + intros tr.
      apply (IHl (with_CustomTokens _ config) (mkState _ _ _)). done.
Qed.

Lemma runs_configureCustomTokens env config defaultConfiguration st g i t :
  or_default (CustomTokens config) (CustomTokens defaultConfiguration) = Some g →
  Token config = Some i →
  heap st !! i = Some t →
  (g = NilMap → getCustomTokenList env = []) →
  runs (configureCustomTokens env config defaultConfiguration) st
       (with_CustomTokens
          (Some (custom_phase (getCustomTokenList env) (length (heap st)) (Some i) g))
          config)
       (heap st ++ ((fun k => customRate env k t) <$> getCustomTokenList env))
       (instances st).
Proof.
  intros Hg Hi Ht Hnil. unfold configureCustomTokens.
  set (config' := match CustomTokens config with
                  | Some _ => config
                  | None => with_CustomTokens (CustomTokens defaultConfiguration) config
                  end).
  assert (CustomTokens config' = Some g) as Hg'.
  { subst config'. destruct (CustomTokens config) eqn:E; simpl in *; congruence. }
  assert (Token config' = Some i) as Hi'.
  { subst config'. by destruct (CustomTokens config). }
  assert (∀ v, with_CustomTokens v config' = with_CustomTokens v config) as Hw.
  { intros v. subst config'. by destruct (CustomTokens config). }
  clearbody config'. rewrite <- Hw. clear Hw Hg Hi config. rename config' into config.
  destruct g as [|m].
  - rewrite Hnil by done. simpl. rewrite app_nil_r.
    unfold range_keys. rewrite Hg'. unfold bind; simpl.
    rewrite with_CustomTokens_id by done. apply runs_ret.
  - unfold range_keys. rewrite Hg'.
    eapply runs_bind; [apply runs_ret|]. intros tr.
    eapply runs_bind; [by apply (runs_complete _ _ (mkState _ _ _))|]. intros tr'.
    rewrite foldl_complete_step_keys, Hi'.
    pose proof (runs_discover env defaultConfiguration (getCustomTokenList env)
                  (with_CustomTokens (Some (Map (complete (Some i) m))) config)
                  (mkState (heap st) (instances st) tr') _ i t eq_refl Hi' Ht) as H.
    apply H.
Qed.

Lemma panics_configureCustomTokens env config defaultConfiguration st i t :
  or_default (CustomTokens config) (CustomTokens defaultConfiguration) = Some NilMap →
  Token config = Some i →
  heap st !! i = Some t →
  getCustomTokenList env ≠ [] →
  configureCustomTokens env config defaultConfiguration st = Panic NilMapAssignment.
Proof.
  intros Hg Hi Ht Hne. unfold configureCustomTokens.
  set (config' := match CustomTokens config with
                  | Some _ => config
                  | None => with_CustomTokens (CustomTokens defaultConfiguration) config
                  end).
  assert (CustomTokens config' = Some NilMap) as Hg'.
  { subst config'. destruct (CustomTokens config) eqn:E; simpl in *; congruence. }
  assert (Token config' = Some i) as Hi'.
  { subst config'. by destruct (CustomTokens config). }
  clearbody config'. clear Hg Hi config. rename config' into config.
  unfold range_keys. rewrite Hg'. unfold bind at 1 2; simpl.
  destruct (getCustomTokenList env) as [|k l]; [done|]. simpl.
  apply panics_bind. destruct st. by eapply panics_configureCustomToken_nil.
Qed.

(** ** The backend and responder phases *)

Lemma panics_configureStorageAdapter env config defaultConfiguration st :
  use_redis env = true →
  getStringEnv env envRedisAddress = None →
  configureStorageAdapter env config defaultConfiguration st
  = Panic (PanicMessage redis_message).
Proof.
  unfold use_redis, configureStorageAdapter. intros Hu Ha.
  destruct (getBoolEnv env envUseRedis) as [[|]|]; try done.
  unfold configureRedisStorageAdapter.
  eapply panics_bind_runs; [apply runs_DebugPrintfWithoutKey|]. intros tr.
  apply panics_bind. by rewrite Ha.
Qed.

Lemma runs_configureStorageAdapter_redis env config defaultConfiguration st address :
  use_redis env = true →
  getStringEnv env envRedisAddress = Some address →
  runs (configureStorageAdapter env config defaultConfiguration) st
       (with_StorageAdapter (Some (redis_adapter env (instances st) address)) config)
       (heap st) (S (instances st)).
Proof.
  unfold use_redis, configureStorageAdapter. intros Hu Ha.
  destruct (getBoolEnv env envUseRedis) as [[|]|]; try done.
  unfold configureRedisStorageAdapter.
  eapply runs_bind; [apply runs_DebugPrintfWithoutKey|]. intros tr.
  rewrite Ha. eapply runs_bind; [apply (runs_ret _ (mkState _ _ _))|]. intros tr'.
  simpl. unfold NewRateLimitRedisStorageAdapter, fresh_instance, bind, ret, runs.
  simpl. exists tr'. unfold redis_adapter.
  destruct (getStringEnv env envRedisPassword), (getInt64Env env envRedisDB);
    simpl; by destruct (StorageAdapter config).
Qed.

Lemma runs_configureStorageAdapter env config defaultConfiguration st :
  use_redis env = false →
  runs (configureStorageAdapter env config defaultConfiguration) st
       (with_StorageAdapter
          (or_default (StorageAdapter config) (StorageAdapter defaultConfiguration))
          config)
       (heap st) (instances st).
Proof.
  unfold use_redis, configureStorageAdapter. intros Hu.
  set (config' := match StorageAdapter config with
                  | Some _ => config
                  | None => with_StorageAdapter (StorageAdapter defaultConfiguration) config
                  end).
  assert (with_StorageAdapter
            (or_default (StorageAdapter config) (StorageAdapter defaultConfiguration))
            config = config') as ->.
  { subst config'. destruct config as [? ? ? [a|] ? ? ?]; done. }
  clearbody config'.
  assert (runs (if negb (same_adapter (StorageAdapter config')
                           (StorageAdapter defaultConfiguration))
                then DebugPrintfWithoutKey config' "using StorageAdapter Custom" [] ;;;
                     ret config'
                else DebugPrintfWithoutKey config' "using StorageAdapter Default" [] ;;;
                     ret config')
               st config' (heap st) (instances st)) as H.
  { destruct (negb _);
      (eapply runs_bind; [apply runs_DebugPrintfWithoutKey|]);
      intros tr; apply (runs_ret _ (mkState _ _ _)). }
  by destruct (getBoolEnv env envUseRedis) as [[|]|].
Qed.

Lemma runs_configureResponseWriter config defaultConfiguration st :
  runs (configureResponseWriter config defaultConfiguration) st
       (with_ResponseWriter
          (or_default (ResponseWriter config) (ResponseWriter defaultConfiguration))
          config)
       (heap st) (instances st).
Proof.
  unfold configureResponseWriter.
  set (config' := match ResponseWriter config with
                  | Some _ => config
                  | None => with_ResponseWriter (ResponseWriter defaultConfiguration) config
                  end).
  assert (with_ResponseWriter
            (or_default (ResponseWriter config) (ResponseWriter defaultConfiguration))
            config = config') as ->.
  { subst config'. destruct config as [? ? ? ? [a|] ? ?]; done. }
  clearbody config'.
  destruct (negb _);
    (eapply runs_bind; [apply runs_DebugPrintfWithoutKey|]);
    intros tr; apply (runs_ret _ (mkState _ _ _)).
Qed.

(** ** The whole resolution in closed form *)

Lemma runs_getDefaultConfiguration st :
  runs getDefaultConfiguration st (default_configuration st)
       (heap st ++ default_cells) (S (S (instances st))).
Proof.
  exists (trace st). unfold getDefaultConfiguration, default_configuration, bind, new.
  simpl. rewrite length_app, Nat.add_1_r, <- app_assoc. done.
Qed.

Lemma resolved_ip_lt config st :
  caller_ok st config →
  (resolved_ip config st < length (heap st ++ default_cells))%nat.
Proof.
  unfold resolved_ip, effective. rewrite length_app. simpl.
  destruct config as [c|]; simpl; [|lia].
  intros (Hip & _). destruct (IP c); simpl in *; lia.
Qed.

Lemma resolved_token_lt config st :
  caller_ok st config →
  (resolved_token config st < length (heap st ++ default_cells))%nat.
Proof.
  unfold resolved_token, effective. rewrite length_app. simpl.
  destruct config as [c|]; simpl; [|lia].
  intros (_ & Htok & _). destruct (Token c); simpl in *; lia.
Qed.

Lemma length_rates_heap env config st :
  length (rates_heap env config st) = length (heap st ++ default_cells).
Proof. unfold rates_heap. by rewrite !length_overrides. Qed.

Lemma token_cell_lookup env config st :
  caller_ok st config →
  rates_heap env config st !! resolved_token config st
  = Some (token_cell env config st).
Proof.
  intros Hok. unfold token_cell.
  destruct (lookup_lt_is_Some_2 (rates_heap env config st) (resolved_token config st))
    as [t Ht]; [|by rewrite Ht].
  rewrite length_rates_heap. by apply resolved_token_lt.
Qed.

Lemma or_default_Some {A} (x : option A) (d : A) :
  or_default x (Some d) = Some (default d x).
Proof. by destruct x. Qed.

Lemma setConfiguration_rates env config st :
  caller_ok st config →
  ∃ tr, setConfiguration env config st =
        after_rates env (rates_config env config st) (default_configuration st)
          (mkState (rates_heap env config st) (S (S (instances st))) tr).
Proof.
  intros Hok. unfold setConfiguration.
  pose proof (runs_getDefaultConfiguration st) as H0. run_first H0.
  cbv zeta. change (match config with
          | Some c => c
          | None => default_configuration st
          end) with (effective config st).
  set (c0 := effective config st).
  set (d := default_configuration st).
  assert (runs (if negb (DisableEnvs c0) then
                  match getBoolEnv env envKeyDebug with
                  | Some debug =>
                      DebugPrintfWithoutKey (with_Debug debug c0) "using env %s"
                        [ArgString envKeyDebug] ;;;
                      ret (with_Debug debug c0)
                  | None => ret c0
                  end
                else ret c0)
               (mkState (heap st ++ default_cells) (S (S (instances st))) tr)
               (with_Debug (resolved_debug env c0) c0)
               (heap st ++ default_cells) (S (S (instances st)))) as Hdbg.
  { unfold resolved_debug.
    assert (with_Debug (Debug c0) c0 = c0) as Hid by by destruct c0.
    destruct (DisableEnvs c0); simpl.
    - rewrite Hid. apply (runs_ret _ (mkState _ _ _)).
    - destruct (getBoolEnv env envKeyDebug); simpl.
      + eapply runs_bind; [apply (runs_DebugPrintfWithoutKey _ _ _ (mkState _ _ _))|].
        intros tr'. apply (runs_ret _ (mkState _ _ _)).
      + rewrite Hid. apply (runs_ret _ (mkState _ _ _)). }
  run_first Hdbg.
  pose proof (runs_configureIP env (with_Debug (resolved_debug env c0) c0) d
                (mkState (heap st ++ default_cells) (S (S (instances st))) tr0)
                (resolved_ip config st)) as Hip.
  simpl in Hip. rewrite or_default_Some in Hip.
  specialize (Hip eq_refl (resolved_ip_lt _ _ Hok)).
  run_first Hip.
  pose proof (runs_configureToken env
                (with_IP (Some (resolved_ip config st))
                   (with_Debug (resolved_debug env c0) c0)) d
                (mkState (overrides env (DisableEnvs c0) envKeyIPMaxRequestsPerSecond
                            envKeyIPBlockTimeMilliseconds (resolved_ip config st)
                            (heap st ++ default_cells))
                         (S (S (instances st))) tr1)
                (resolved_token config st)) as Htok.
  simpl in Htok. rewrite or_default_Some, length_overrides in Htok.
  specialize (Htok eq_refl (resolved_token_lt _ _ Hok)).
  run_first Htok. by exists tr2.
Qed.

Lemma caller_map_eq config st :
  or_default (CustomTokens (effective config st))
             (CustomTokens (default_configuration st))
  = Some (caller_map config st).
Proof. unfold caller_map. simpl. by destruct (CustomTokens (effective config st)). Qed.

Lemma runs_final_trace config st :
  runs ((if Debug config then
           let! jsonConfiguration := json_Marshal config in
           DebugPrintfWithoutKey config "using configuration: %s"
             [ArgJSON jsonConfiguration]
         else ret tt) ;;; ret config)
       st config (heap st) (instances st).
Proof.
  eapply runs_bind; [|intros tr; apply (runs_ret _ (mkState _ _ _))].
  destruct (Debug config); [|apply runs_ret].
  apply (runs_bind _ _ _ (values (heap st) config) (heap st) (instances st)).
  - exists (trace st). unfold json_Marshal. by destruct st.
  - intros tr. apply (runs_DebugPrintfWithoutKey _ _ _ (mkState _ _ _)).
Qed.

Lemma runs_setConfiguration env config st :
  caller_ok st config →
  ¬ nil_map_assignment env config st →
  ¬ redis_address_missing env →
  runs (setConfiguration env config) st (resolved env config st)
       (resolved_heap env config st) (resolved_instances env st).
Proof.
  intros Hok Hnil Hredis.
  destruct (setConfiguration_rates env config st Hok) as [tr Heq].
  unfold runs. rewrite Heq. clear Heq. unfold after_rates.
  pose proof (runs_configureCustomTokens env (rates_config env config st)
                (default_configuration st)
                (mkState (rates_heap env config st) (S (S (instances st))) tr)
                (caller_map config st) (resolved_token config st)
                (token_cell env config st)
                (caller_map_eq config st) eq_refl
                (token_cell_lookup env config st Hok)) as Hct.
  simpl in Hct.
  assert (caller_map config st = NilMap → getCustomTokenList env = []) as Hn.
  { intros Hm. destruct (decide (getCustomTokenList env = [])); [done|].
    exfalso. by apply Hnil. }
  specialize (Hct Hn). run_first Hct.
  fold (resolved_map env config st). fold (resolved_heap env config st).
  set (c3 := with_CustomTokens (Some (resolved_map env config st))
               (rates_config env config st)).
  unfold resolved, resolved_adapter, resolved_instances.
  destruct (use_redis env) eqn:Hu.
  - destruct (getStringEnv env envRedisAddress) as [address|] eqn:Ha;
      [|exfalso; by apply Hredis].
    run_next runs_configureStorageAdapter_redis.
    run_next runs_configureResponseWriter.
    apply (runs_final_trace _ (mkState _ _ _)).
  - run_next runs_configureStorageAdapter.
    run_next runs_configureResponseWriter.
    apply (runs_final_trace _ (mkState _ _ _)).
Qed.

Lemma panics_setConfiguration_nil_map env config st :
  caller_ok st config →
  nil_map_assignment env config st →
  setConfiguration env config st = Panic NilMapAssignment.
Proof.
  intros Hok [Hm Hne].
  destruct (setConfiguration_rates env config st Hok) as [tr ->].
  unfold after_rates. apply panics_bind.
  eapply panics_configureCustomTokens; try done.
  - rewrite <- Hm. apply caller_map_eq.
  - apply (token_cell_lookup env config st Hok).
Qed.

Lemma panics_setConfiguration_redis env config st :
  caller_ok st config →
  ¬ nil_map_assignment env config st →
  redis_address_missing env →
  setConfiguration env config st = Panic (PanicMessage redis_message).
Proof.
  intros Hok Hnil [Hu Ha].
  destruct (setConfiguration_rates env config st Hok) as [tr ->].
  unfold after_rates.
  pose proof (runs_configureCustomTokens env (rates_config env config st)
                (default_configuration st)
                (mkState (rates_heap env config st) (S (S (instances st))) tr)
                (caller_map config st) (resolved_token config st)
                (token_cell env config st)
                (caller_map_eq config st) eq_refl
                (token_cell_lookup env config st Hok)) as Hct.
  simpl in Hct.
  assert (caller_map config st = NilMap → getCustomTokenList env = []) as Hn.
  { intros Hm. destruct (decide (getCustomTokenList env = [])); [done|].
    exfalso. by apply Hnil. }
  specialize (Hct Hn). run_first Hct.
  apply panics_bind. by apply panics_configureStorageAdapter.
Qed.

(** The three outcomes of a resolution. *)
Lemma setConfiguration_outcome env config st :
  caller_ok st config →
  (nil_map_assignment env config st ∧
   setConfiguration env config st = Panic NilMapAssignment) ∨
  (¬ nil_map_assignment env config st ∧ redis_address_missing env ∧
   setConfiguration env config st = Panic (PanicMessage redis_message)) ∨
  (¬ nil_map_assignment env config st ∧ ¬ redis_address_missing env ∧
   runs (setConfiguration env config) st (resolved env config st)
        (resolved_heap env config st) (resolved_instances env st)).
Proof.
  intros Hok.
  assert (nil_map_assignment env config st ∨ ¬ nil_map_assignment env config st)
    as [Hnil|Hnil].
  { unfold nil_map_assignment.
    destruct (caller_map config st); [|right; by intros [? _]].
    destruct (getCustomTokenList env); [right; by intros [_ ?]|by left]. }
  { left. split; [done|]. by apply panics_setConfiguration_nil_map. }
  right.
  assert (redis_address_missing env ∨ ¬ redis_address_missing env) as [Hr|Hr].
  { unfold redis_address_missing.
    destruct (use_redis env); [|right; by intros [? _]].
    destruct (getStringEnv env envRedisAddress); [right; by intros [_ ?]|by left]. }
  - left. split; [done|]. split; [done|]. by apply panics_setConfiguration_redis.
  - right. split; [done|]. split; [done|]. by apply runs_setConfiguration.
Qed.

Lemma setConfiguration_Ok env config st c' st' :
  caller_ok st config →
  setConfiguration env config st = Ok (c', st') →
  ¬ nil_map_assignment env config st ∧ ¬ redis_address_missing env ∧
  c' = resolved env config st ∧ heap st' = resolved_heap env config st.
Proof.
  intros Hok HOk.
  destruct (setConfiguration_outcome env config st Hok)
    as [[_ H]|[(_ & _ & H)|(Hn & Hr & H)]]; try congruence.
  destruct (runs_inv _ _ _ _ _ _ _ H HOk) as (-> & -> & _). done.
Qed.

(** ** Values of the resolved configuration *)

Lemma lookup_values_discovered (rate : string → RateLimiterRateConfig) l :
  ∀ (h : list RateLimiterRateConfig) (m : gmap string (option ptr)) k,
    cell (h ++ (rate <$> l)) <$> (discovered l (length h) m !! k) =
    if decide (k ∈ l) then Some (Some (rate k))
    else cell (h ++ (rate <$> l)) <$> (m !! k).
Proof.
  induction l as [|k0 l IHl]; intros h m k.
  - simpl. destruct (decide (k ∈ [])) as [H|H]; [by apply elem_of_nil in H|done].
  - pose proof (IHl (h ++ [rate k0])%list (<[ k0 := Some (length h) ]> m) k) as H.
    rewrite <- app_assoc, length_app, Nat.add_1_r in H.
    rewrite fmap_cons.
    change (discovered (k0 :: l) (length h) m)
      with (discovered l (S (length h)) (<[ k0 := Some (length h) ]> m)).
    change ([rate k0] ++ (rate <$> l))%list with (rate k0 :: (rate <$> l)) in H.
    rewrite H. clear H.
    destruct (decide (k ∈ l)) as [Hin|Hin].
    + by rewrite decide_True by by right.
    + destruct (decide (k0 = k)) as [->|Hne].
      * rewrite decide_True by left. rewrite lookup_insert_eq. simpl.
        by rewrite list_lookup_middle.
      * rewrite decide_False by (intros [->|?]%elem_of_cons; done).
        by rewrite lookup_insert_ne.
Qed.

Lemma discovered_ok n' l :
  ∀ n (m : gmap string (option ptr)),
    map_Forall (fun _ p => ptr_ok n' p) m →
    (n + length l ≤ n')%nat →
    map_Forall (fun _ p => ptr_ok n' p) (discovered l n m).
Proof.
  induction l as [|k l IHl]; intros n m Hm Hn; simpl in *; [done|].
  apply IHl; [|lia]. apply map_Forall_insert_2; [simpl; lia|done].
Qed.

Lemma complete_ok n token (m : gmap string (option ptr)) :
  ptr_ok n token →
  map_Forall (fun _ p => ptr_ok n p) m →
  map_Forall (fun _ p => ptr_ok n p) (complete token m).
Proof.
  intros Ht Hm k p. unfold complete. rewrite lookup_fmap.
  destruct (m !! k) as [v|] eqn:E; simpl; [|done].
  intros [= <-]. destruct v; simpl; [|done]. by apply (Hm k _ E).
Qed.

Lemma ptr_ok_mono n n' p : (n ≤ n')%nat → ptr_ok n p → ptr_ok n' p.
Proof. destruct p; simpl; lia. Qed.

Lemma map_ok_mono n n' g : (n ≤ n')%nat → map_ok n g → map_ok n' g.
Proof.
  intros Hn. destruct g as [|m]; simpl; [done|].
  intros Hm k p Hk. eapply ptr_ok_mono; [done|]. by apply (Hm k _ Hk).
Qed.

Lemma length_resolved_heap env config st :
  length (resolved_heap env config st)
  = (length (heap st) + 2 + length (getCustomTokenList env))%nat.
Proof.
  unfold resolved_heap.
  rewrite length_app, length_rates_heap, length_fmap, length_app. simpl. lia.
Qed.

Lemma caller_map_ok config st :
  caller_ok st config → map_ok (length (heap st)) (caller_map config st).
Proof.
  unfold caller_map, effective. destruct config as [c|]; simpl.
  - intros (_ & _ & Hm). destruct (CustomTokens c); simpl; [done|].
    apply map_Forall_empty.
  - intros _. apply map_Forall_empty.
Qed.

(** The result of a resolution refers to live cells only. *)
Lemma resolved_ok env config st :
  caller_ok st config →
  config_ok (length (resolved_heap env config st)) (resolved env config st).
Proof.
  intros Hok. rewrite length_resolved_heap.
  pose proof (resolved_ip_lt _ _ Hok) as Hip.
  pose proof (resolved_token_lt _ _ Hok) as Htok.
  rewrite length_app in Hip, Htok. simpl in Hip, Htok.
  split; [simpl; lia|]. split; [simpl; lia|]. simpl.
  unfold resolved_map. pose proof (caller_map_ok _ _ Hok) as Hm.
  destruct (caller_map config st) as [|m]; simpl; [done|].
  apply discovered_ok.
  - apply complete_ok; [simpl; lia|].
    intros k p Hk. eapply ptr_ok_mono; [|by apply (Hm k _ Hk)]. lia.
  - rewrite length_rates_heap, length_app. simpl. lia.
Qed.

Lemma resolved_token_value env config st :
  caller_ok st config →
  cell (resolved_heap env config st) (Some (resolved_token config st))
  = Some (token_cell env config st).
Proof.
  intros Hok. simpl. unfold resolved_heap.
  apply lookup_app_l_Some. by apply token_cell_lookup.
Qed.

Lemma resolved_tokens_lookup env config st m k :
  caller_map config st = Map m →
  map_values (resolved_heap env config st) (resolved_map env config st) !! k =
  if decide (k ∈ getCustomTokenList env)
  then Some (Some (customRate env k (token_cell env config st)))
  else cell (resolved_heap env config st)
         <$> (complete (Some (resolved_token config st)) m !! k).
Proof.
  intros Hm. unfold resolved_map, resolved_heap. rewrite Hm. simpl.
  rewrite lookup_fmap.
  apply (lookup_values_discovered
           (fun k => customRate env k (token_cell env config st))).
Qed.

Lemma resolved_tokens_nil env config st :
  caller_map config st = NilMap →
  map_values (resolved_heap env config st) (resolved_map env config st) = ∅.
Proof. intros Hm. unfold resolved_map. by rewrite Hm. Qed.

(** ** The lookup of a token *)

(** C10: on a configuration whose [CustomTokens] is not nil, the lookup
    returns the entry of the token and true when the token is a key of the
    mapping, and the default Token policy and false when it is not; it
    returns and leaves the state as it was, and the configuration, which it
    only reads, is not part of its result. *)
Theorem GetRateLimiterRateConfigForToken_spec (c : RateLimiterConfig) (g : GoMap)
    (token : string) (st : State) :
  CustomTokens c = Some g →
  GetRateLimiterRateConfigForToken c token st =
  Ok (match entry g token with
      | Some customTokenConfig => (customTokenConfig, true)
      | None => (Token c, false)
      end, st).
Proof.
  intros Hg. unfold GetRateLimiterRateConfigForToken, map_index, bind. rewrite Hg.
  destruct g as [|m]; simpl; [done|]. by destruct (m !! token).
Qed.

Lemma GetRateLimiterRateConfigForToken_spec_witness :
  GetRateLimiterRateConfigForToken sample_config "ABC" sample_state
  = Ok ((Some 2%nat, true), sample_state) ∧
  GetRateLimiterRateConfigForToken sample_config "XYZ" sample_state
  = Ok ((Some 1%nat, false), sample_state).
Proof.
  split.
  - apply (GetRateLimiterRateConfigForToken_spec sample_config _ "ABC" sample_state
             eq_refl).
  - apply (GetRateLimiterRateConfigForToken_spec sample_config _ "XYZ" sample_state
             eq_refl).
Defined.

(** ** What a returning phase leaves of the configuration *)

Lemma bind_Ok {A B} (m : M A) (k : A → M B) st r :
  bind m k st = Ok r → ∃ a st', m st = Ok (a, st') ∧ k a st' = Ok r.
Proof. unfold bind. destruct (m st) as [[a st']|v]; [eauto|done]. Qed.

Lemma ret_Ok {A} (a : A) st a' st' : ret a st = Ok (a', st') → a' = a.
Proof. by intros [= <- _]. Qed.


Lemma keeps_refl c : keeps c c.
Proof. by repeat split. Qed.

Lemma keeps_trans c1 c2 c3 : keeps c1 c2 → keeps c2 c3 → keeps c1 c3.
Proof.
  intros (H1 & H2 & H3 & H4 & H5) (G1 & G2 & G3 & G4 & G5).
  repeat split; try congruence. auto.
Qed.

Lemma keeps_with_CustomTokens g c : keeps c (with_CustomTokens (Some g) c).
Proof. repeat split. simpl. eauto. Qed.

Lemma map_assign_Ok key value c st c' st' :
  map_assign key value c st = Ok (c', st') → keeps c c'.
Proof.
  unfold map_assign. destruct (CustomTokens c) as [[|m]|]; try done.
  intros ->%ret_Ok. apply keeps_with_CustomTokens.
Qed.

Lemma configureCustomToken_Ok env c d customToken st c' st' :
  configureCustomToken env c d customToken st = Ok (c', st') → keeps c c'.
Proof.
  unfold configureCustomToken. intros H.
  apply bind_Ok in H as (_ & ? & _ & H).
  apply bind_Ok in H as (? & ? & _ & H).
  apply bind_Ok in H as (? & ? & _ & H).
  apply bind_Ok in H as (? & ? & _ & H).
  by apply map_assign_Ok in H.
Qed.

Lemma completeCustomToken_Ok c key st c' st' :
  completeCustomToken c key st = Ok (c', st') → keeps c c'.
Proof.
  unfold completeCustomToken. intros H.
  apply bind_Ok in H as ([value ok] & ? & _ & H).
  destruct (negb ok || is_nil value).
  - by apply map_assign_Ok in H.
  - apply ret_Ok in H as ->. apply keeps_refl.
Qed.

Lemma forEach_Ok {A} (body : RateLimiterConfig → A → M RateLimiterConfig) l :
  (∀ c x st c' st', body c x st = Ok (c', st') → keeps c c') →
  ∀ c st c' st', forEach l body c st = Ok (c', st') → keeps c c'.
Proof.
  intros Hbody. induction l as [|x l IHl]; intros c st c' st' H; simpl in H.
  - apply ret_Ok in H as ->. apply keeps_refl.
  - apply bind_Ok in H as (c1 & st1 & H1 & H).
    eapply keeps_trans; [by eapply Hbody|by eapply IHl].
Qed.

Lemma configureCustomTokens_Ok env c d st c' st' :
  configureCustomTokens env c d st = Ok (c', st') →
  IP c' = IP c ∧ Token c' = Token c ∧
  StorageAdapter c' = StorageAdapter c ∧ ResponseWriter c' = ResponseWriter c ∧
  (is_Some (CustomTokens d) → is_Some (CustomTokens c')).
Proof.
  unfold configureCustomTokens.
  set (c1 := match CustomTokens c with
             | Some _ => c
             | None => with_CustomTokens (CustomTokens d) c
             end).
  assert (IP c1 = IP c ∧ Token c1 = Token c ∧ StorageAdapter c1 = StorageAdapter c ∧
          ResponseWriter c1 = ResponseWriter c ∧
          (is_Some (CustomTokens d) → is_Some (CustomTokens c1)))
    as (H1 & H2 & H3 & H4 & H5).
  { subst c1. destruct (CustomTokens c) eqn:E; simpl; repeat split; eauto. }
  clearbody c1. intros H.
  apply bind_Ok in H as (keys & ? & _ & H).
  apply bind_Ok in H as (c2 & ? & Hc2 & H).
  apply (forEach_Ok _ _ completeCustomToken_Ok) in Hc2.
  apply (forEach_Ok _ _ (fun c x => configureCustomToken_Ok env c d x)) in H.
  destruct (keeps_trans _ _ _ Hc2 H) as (G1 & G2 & G3 & G4 & G5).
  repeat split; try congruence. auto.
Qed.

Lemma configureIP_Ok env c d st c' st' :
  configureIP env c d st = Ok (c', st') → c' = with_IP (or_default (IP c) (IP d)) c.
Proof.
  unfold configureIP.
  set (c1 := match IP c with
             | Some _ => c
             | None => with_IP (IP d) c
             end).
  assert (c1 = with_IP (or_default (IP c) (IP d)) c) as <-.
  { subst c1. by destruct c as [[?|] ? ? ? ? ? ?]. }
  clearbody c1. destruct (negb (DisableEnvs c1)); [|by intros ->%ret_Ok].
  intros H.
  apply bind_Ok in H as (? & ? & _ & H).
  apply bind_Ok in H as (? & ? & _ & H).
  by apply ret_Ok in H.
Qed.

Lemma configureToken_Ok env c d st c' st' :
  configureToken env c d st = Ok (c', st') →
  c' = with_Token (or_default (Token c) (Token d)) c.
Proof.
  unfold configureToken.
  set (c1 := match Token c with
             | Some _ => c
             | None => with_Token (Token d) c
             end).
  assert (c1 = with_Token (or_default (Token c) (Token d)) c) as <-.
  { subst c1. by destruct c as [? [?|] ? ? ? ? ?]. }
  clearbody c1. destruct (negb (DisableEnvs c1)); [|by intros ->%ret_Ok].
  intros H.
  apply bind_Ok in H as (? & ? & _ & H).
  apply bind_Ok in H as (? & ? & _ & H).
  by apply ret_Ok in H.
Qed.

Lemma configureStorageAdapter_Ok env c d st c' st' :
  configureStorageAdapter env c d st = Ok (c', st') →
  IP c' = IP c ∧ Token c' = Token c ∧ CustomTokens c' = CustomTokens c ∧
  ResponseWriter c' = ResponseWriter c ∧
  (is_Some (StorageAdapter d) → is_Some (StorageAdapter c')).
Proof.
  unfold configureStorageAdapter.
  set (c1 := match StorageAdapter c with
             | Some _ => c
             | None => with_StorageAdapter (StorageAdapter d) c
             end).
  assert (IP c1 = IP c ∧ Token c1 = Token c ∧ CustomTokens c1 = CustomTokens c ∧
          ResponseWriter c1 = ResponseWriter c ∧
          (is_Some (StorageAdapter d) → is_Some (StorageAdapter c1)))
    as (H1 & H2 & H3 & H4 & H5).
  { subst c1. destruct (StorageAdapter c) eqn:E; simpl; repeat split; eauto. }
  clearbody c1. intros H.
  assert (c' = c1 ∨ ∃ a, c' = with_StorageAdapter (Some a) c1) as [->|[a ->]];
    [|done|by (repeat split; simpl; eauto)].
  destruct (getBoolEnv env envUseRedis) as [[|]|].
  - right. unfold configureRedisStorageAdapter in H.
    apply bind_Ok in H as (? & ? & _ & H).
    apply bind_Ok in H as (? & ? & _ & H).
    apply bind_Ok in H as (a & ? & _ & H).
    apply ret_Ok in H. eauto.
  - left. destruct (negb _);
      apply bind_Ok in H as (? & ? & _ & H); by apply ret_Ok in H.
  - left. destruct (negb _);
      apply bind_Ok in H as (? & ? & _ & H); by apply ret_Ok in H.
Qed.

Lemma configureResponseWriter_Ok c d st c' st' :
  configureResponseWriter c d st = Ok (c', st') →
  c' = with_ResponseWriter (or_default (ResponseWriter c) (ResponseWriter d)) c.
Proof.
  unfold configureResponseWriter.
  set (c1 := match ResponseWriter c with
             | Some _ => c
             | None => with_ResponseWriter (ResponseWriter d) c
             end).
  assert (c1 = with_ResponseWriter (or_default (ResponseWriter c) (ResponseWriter d)) c)
    as <-.
  { subst c1. by destruct c as [? ? ? ? [?|] ? ?]. }
  clearbody c1. intros H.
  destruct (negb _); apply bind_Ok in H as (? & ? & _ & H); by apply ret_Ok in H.
Qed.

Lemma getDefaultConfiguration_Ok st d st' :
  getDefaultConfiguration st = Ok (d, st') →
  is_Some (IP d) ∧ is_Some (Token d) ∧ is_Some (CustomTokens d) ∧
  is_Some (StorageAdapter d) ∧ is_Some (ResponseWriter d).
Proof.
  intros H. destruct (runs_inv _ _ _ _ _ _ _ (runs_getDefaultConfiguration st) H)
    as (-> & _). unfold default_configuration. simpl. repeat split; eauto.
Qed.

Lemma or_default_is_Some {A} (x d : option A) : is_Some d → is_Some (or_default x d).
Proof. destruct x; simpl; eauto. Qed.

Lemma bind_panics {A B} (m : M A) (k : A → M B) st :
  (∀ a st', ∃ v, k a st' = Panic v) → ∃ v, bind m k st = Panic v.
Proof. intros Hk. unfold bind. destruct (m st) as [[a st']|v]; eauto. Qed.

Lemma setConfiguration_panics env config st :
  getBoolEnv env envUseRedis = Some true →
  env !! envRedisAddress = None →
  ∃ v, setConfiguration env config st = Panic v.
Proof.
  intros Hu Ha. unfold setConfiguration.
  apply bind_panics. intros d st0.
  apply bind_panics. intros c0 st1.
  apply bind_panics. intros c1 st2.
  apply bind_panics. intros c2 st3.
  apply bind_panics. intros c3 st4.
  exists (PanicMessage redis_message). apply panics_bind.
  apply panics_configureStorageAdapter; [|done]. unfold use_redis. by rewrite Hu.
Qed.

(** ** Presence of the fields *)

(** C8: whenever resolution returns, for a caller configuration that may be
    absent and any environment, the IP policy, the Token policy, the
    custom-token mapping (the field [CustomTokens]), the backend and the
    response writer of the result are all present. *)
Theorem setConfiguration_fields_present (env : Env)
    (config : option RateLimiterConfig) (st : State)
    (c' : RateLimiterConfig) (st' : State) :
  setConfiguration env config st = Ok (c', st') →
  is_Some (IP c') ∧ is_Some (Token c') ∧ is_Some (CustomTokens c') ∧
  is_Some (StorageAdapter c') ∧ is_Some (ResponseWriter c').
Proof.
  unfold setConfiguration. intros H.
  apply bind_Ok in H as (d & ? & Hd & H).
  apply getDefaultConfiguration_Ok in Hd as (D1 & D2 & D3 & D4 & D5).
  apply bind_Ok in H as (c0 & ? & _ & H).
  apply bind_Ok in H as (c1 & ? & ->%configureIP_Ok & H).
  apply bind_Ok in H as (c2 & ? & ->%configureToken_Ok & H).
  apply bind_Ok in H as (c3 & ? & (T1 & T2 & T3 & T4 & T5)%configureCustomTokens_Ok & H).
  apply bind_Ok in H as (c4 & ? & (S1 & S2 & S3 & S4 & S5)%configureStorageAdapter_Ok & H).
  apply bind_Ok in H as (c5 & ? & ->%configureResponseWriter_Ok & H).
  apply bind_Ok in H as (? & ? & _ & ->%ret_Ok).
  simpl in *. rewrite S1, S2, S3, T1, T2.
  repeat split; auto using or_default_is_Some.
Qed.

(** ** The missing address of the networked backend *)

(** C3: when RATE_LIMITER_USE_REDIS holds a truthy literal and
    RATE_LIMITER_REDIS_ADDRESS is unset, resolution panics for every caller
    configuration: it returns no configuration.  For a caller whose pointers
    are live, and unless the caller's map is a nil map that a discovered
    token is assigned to, which panics before the backend is chosen, the
    panic carries the message that names the missing variable. *)
Theorem setConfiguration_redis_address_required (env : Env)
    (config : option RateLimiterConfig) (st : State) :
  getBoolEnv env envUseRedis = Some true →
  env !! envRedisAddress = None →
  (∃ v, setConfiguration env config st = Panic v) ∧
  (caller_ok st config → ¬ nil_map_assignment env config st →
   setConfiguration env config st =
   Panic (PanicMessage
            "RATE_LIMITER_REDIS_ADDRESS env is required when using redis adapter with env configuration")).
Proof.
  intros Hu Ha. split; [by apply setConfiguration_panics|].
  intros Hok Hn. apply panics_setConfiguration_redis; [done|done|].
  split; [|done]. unfold use_redis. by rewrite Hu.
Qed.

Lemma setConfiguration_fields_present_witness :
  ∃ c' st',
    setConfiguration env_debug None empty_state = Ok (c', st') ∧
    is_Some (IP c') ∧ is_Some (Token c') ∧ is_Some (CustomTokens c') ∧
    is_Some (StorageAdapter c') ∧ is_Some (ResponseWriter c').
Proof.
  eexists. eexists. split; [vm_compute; reflexivity|].
  eapply (setConfiguration_fields_present env_debug None empty_state).
  vm_compute. reflexivity.
Defined.

Lemma setConfiguration_redis_address_required_witness :
  (∃ v, setConfiguration env_redis None empty_state = Panic v) ∧
  (caller_ok empty_state None → ¬ nil_map_assignment env_redis None empty_state →
   setConfiguration env_redis None empty_state =
   Panic (PanicMessage
            "RATE_LIMITER_REDIS_ADDRESS env is required when using redis adapter with env configuration")).
Proof.
  apply (setConfiguration_redis_address_required env_redis None empty_state).
  - vm_compute. reflexivity.
  - vm_compute. reflexivity.
Defined.

(** ** The IP override *)

Lemma resolved_ip_value env config st :
  caller_ok st config →
  no_ip_policy config →
  cell (resolved_heap env config st) (IP (resolved env config st)) =
  Some (envRate env envKeyIPMaxRequestsPerSecond envKeyIPBlockTimeMilliseconds
          (mkRate 100 1000)).
Proof.
  intros Hok Hno. simpl. unfold resolved_heap.
  assert (resolved_ip config st = length (heap st)) as Hip.
  { unfold resolved_ip, effective. destruct config as [c|]; simpl; [|done].
    destruct Hno as [_ ->]. done. }
  assert (DisableEnvs (effective config st) = false) as Hdis.
  { unfold effective. destruct config as [c|]; simpl; [|done]. by destruct Hno. }
  assert (resolved_token config st ≠ length (heap st)) as Htok.
  { unfold resolved_token, effective. destruct config as [c|]; simpl; [|lia].
    destruct Hok as (_ & Ht & _). destruct (Token c); simpl in *; lia. }
  rewrite lookup_app_l
    by (rewrite length_rates_heap, length_app, Hip; simpl; lia).
  unfold rates_heap, overrides. rewrite Hdis, Hip.
  rewrite list_lookup_alter_ne by done.
  rewrite list_lookup_alter_eq.
  by rewrite (list_lookup_middle (heap st) [mkRate 200 500] (mkRate 100 1000)).
Qed.

(** C6: with the environment enabled and no IP policy from the caller, the
    resolved IP policy takes its maximum of requests from
    RATE_LIMITER_IP_MAX_REQUESTS when that variable is set to a base-10
    integer, and is the default 100 when the variable is unset or its text
    is no such integer. *)
Theorem setConfiguration_ip_max_requests (env : Env)
    (config : option RateLimiterConfig) (st : State)
    (c' : RateLimiterConfig) (st' : State) :
  caller_ok st config →
  no_ip_policy config →
  setConfiguration env config st = Ok (c', st') →
  ∃ ip, cell (heap st') (IP c') = Some ip ∧
    (∀ text v, env !! envKeyIPMaxRequestsPerSecond = Some text →
               parseInt64 text = Some v → MaxRequestsPerSecond ip = v) ∧
    (env !! envKeyIPMaxRequestsPerSecond = None → MaxRequestsPerSecond ip = 100) ∧
    (∀ text, env !! envKeyIPMaxRequestsPerSecond = Some text →
             parseInt64 text = None → MaxRequestsPerSecond ip = 100).
Proof.
  intros Hok Hno HOk.
  destruct (setConfiguration_Ok _ _ _ _ _ Hok HOk) as (_ & _ & -> & ->).
  rewrite resolved_ip_value by done.
  eexists. split; [done|]. unfold envRate, getInt64Env; simpl.
  repeat split.
  - intros text v -> Hp. by rewrite Hp.
  - by intros ->.
  - intros text -> Hp. by rewrite Hp.
Qed.

Lemma setConfiguration_ip_max_requests_witness :
  ∃ c' st',
    setConfiguration env_ip_max None empty_state = Ok (c', st') ∧
    ∃ ip, cell (heap st') (IP c') = Some ip ∧ MaxRequestsPerSecond ip = 42.
Proof.
  eexists. eexists. split; [vm_compute; reflexivity|].
  edestruct (setConfiguration_ip_max_requests env_ip_max None empty_state)
    as (ip & Hip & Hv & _); [exact I|exact I|vm_compute; reflexivity|].
  exists ip. split; [exact Hip|].
  apply (Hv "42"); vm_compute; reflexivity.
Defined.

(** Every 64-bit integer is the value of some text. *)
Lemma parseInt64_formatInt v :
  int64_min ≤ v ≤ int64_max → parseInt64 (formatInt v) = Some v.
Proof.
  intros Hv. unfold parseInt64, formatInt.
  assert (NilZero.int_of_string (NilZero.string_of_int (Z.to_int v))
          = Some (Z.to_int v)) as Hisi.
  { apply NilZero.isi; destruct v; simpl; try discriminate;
      intros [= H]; by apply DecimalPos.Unsigned.to_uint_nonnil in H. }
  destruct (NilZero.string_of_int (Z.to_int v)) as [|a s] eqn:Hs; [done|].
  assert (Ascii.eqb a "+"%char = false) as ->.
  { destruct (Ascii.eqb_spec a "+"%char) as [->|]; [|done].
    destruct v as [|p|p]; simpl in Hs; [done| |done].
    unfold NilZero.string_of_uint in Hs.
    destruct (Pos.to_uint p); simpl in Hs; discriminate. }
  rewrite Hisi, DecimalZ.of_to.
  destruct (Z.leb_spec int64_min v); [|lia].
  destruct (Z.leb_spec v int64_max); [done|lia].
Qed.

(** ** Discovery of custom tokens *)

Lemma no_custom_entries_map config st :
  no_custom_entries config → caller_map config st = Map ∅.
Proof.
  unfold caller_map, effective. destruct config as [c|]; simpl; [|done].
  by intros [_ [-> | ->]].
Qed.

Lemma getCustomTokenList_ABC_XYZ env id :
  env_names_ok env →
  is_Some (env !! env_ABC_max) →
  is_Some (env !! env_XYZ_block) →
  only_custom_token_variables env [env_ABC_max; env_XYZ_block] →
  id ∈ getCustomTokenList env ↔ id = "ABC" ∨ id = "XYZ".
Proof.
  intros Hok HA HX Honly. rewrite elem_of_getCustomTokenList_names by done. split.
  - intros (name & Hn & Hm).
    assert (name ∈ [env_ABC_max; env_XYZ_block]) as Hin by (apply Honly; eauto).
    apply elem_of_cons in Hin as [->|Hin].
    + left. vm_compute in Hm. congruence.
    + apply list_elem_of_singleton in Hin as ->. right. vm_compute in Hm. congruence.
  - intros [-> | ->]; [exists env_ABC_max|exists env_XYZ_block]; by split.
Qed.

Lemma unset_of_only env name names :
  only_custom_token_variables env names →
  is_Some (envKeyRegex_submatch name) → name ∉ names → env !! name = None.
Proof.
  intros Honly Hm Hn. destruct (env !! name) eqn:E; [|done].
  exfalso. apply Hn, Honly; eauto.
Qed.

(** C4: when the environment sets RATE_LIMITER_TOKEN_ABC_MAX_REQUESTS to 50
    and RATE_LIMITER_TOKEN_XYZ_BLOCK_TIME to 999 and holds no other variable
    of the custom-token pattern, and the caller leaves the environment
    enabled and gives no custom-token entry, the resolved custom-token
    mapping has exactly the keys ABC and XYZ: ABC with 50 requests and the
    block time of the resolved Token policy, XYZ with the requests of the
    resolved Token policy and a block time of 999. *)
Theorem setConfiguration_discovers_ABC_XYZ (env : Env)
    (config : option RateLimiterConfig) (st : State)
    (c' : RateLimiterConfig) (st' : State) :
  caller_ok st config →
  env_names_ok env →
  env !! env_ABC_max = Some "50" →
  env !! env_XYZ_block = Some "999" →
  only_custom_token_variables env [env_ABC_max; env_XYZ_block] →
  no_custom_entries config →
  setConfiguration env config st = Ok (c', st') →
  ∃ token,
    v_token (values (heap st') c') = Some token ∧
    v_tokens (values (heap st') c') =
    Some {[ "ABC" := Some (mkRate 50 (BlockTimeMilliseconds token));
            "XYZ" := Some (mkRate (MaxRequestsPerSecond token) 999) ]}.
Proof.
  intros Hok Hnames HA HX Honly Hno HOk.
  destruct (setConfiguration_Ok _ _ _ _ _ Hok HOk) as (_ & _ & -> & ->).
  exists (token_cell env config st). split.
  { by apply resolved_token_value. }
  unfold values; simpl. f_equal. apply map_eq. intros k.
  rewrite (resolved_tokens_lookup env config st ∅)
    by by apply no_custom_entries_map.
  pose proof (getCustomTokenList_ABC_XYZ env k Hnames
                (mk_is_Some _ _ HA) (mk_is_Some _ _ HX) Honly) as Hk.
  assert (env !! "RATE_LIMITER_TOKEN_ABC_BLOCK_TIME" = None) as HAb.
  { apply (unset_of_only _ _ _ Honly); [by eexists|].
    intros [H|H]%elem_of_cons; [done|]. by apply list_elem_of_singleton in H. }
  assert (env !! "RATE_LIMITER_TOKEN_XYZ_MAX_REQUESTS" = None) as HXm.
  { apply (unset_of_only _ _ _ Honly); [by eexists|].
    intros [H|H]%elem_of_cons; [done|]. by apply list_elem_of_singleton in H. }
  destruct (decide (k ∈ getCustomTokenList env)) as [Hin|Hin].
  - apply Hk in Hin as [-> | ->].
    + rewrite lookup_insert_eq. unfold customRate, envRate, getInt64Env.
      change ("RATE_LIMITER_TOKEN_" +:+ "ABC" +:+ "_MAX_REQUESTS") with env_ABC_max.
      change ("RATE_LIMITER_TOKEN_" +:+ "ABC" +:+ "_BLOCK_TIME")
        with "RATE_LIMITER_TOKEN_ABC_BLOCK_TIME".
      by rewrite HA, HAb.
    + rewrite lookup_insert_ne by done. rewrite lookup_singleton_eq.
      unfold customRate, envRate, getInt64Env.
      change ("RATE_LIMITER_TOKEN_" +:+ "XYZ" +:+ "_MAX_REQUESTS")
        with "RATE_LIMITER_TOKEN_XYZ_MAX_REQUESTS".
      change ("RATE_LIMITER_TOKEN_" +:+ "XYZ" +:+ "_BLOCK_TIME") with env_XYZ_block.
      by rewrite HX, HXm.
  - unfold complete. rewrite fmap_empty, lookup_empty. simpl.
    rewrite lookup_insert_ne by (intros <-; apply Hin, Hk; by left).
    rewrite lookup_singleton_ne by (intros <-; apply Hin, Hk; by right).
    done.
Qed.

Lemma lookup_env_ABC_XYZ name :
  is_Some (env_ABC_XYZ !! name) →
  name = "RATE_LIMITER_TOKEN_ABC_MAX_REQUESTS" ∨
  name = "RATE_LIMITER_TOKEN_XYZ_BLOCK_TIME" ∨
  name = "RATE_LIMITER_TOKEN_MAX_REQUESTS".
Proof.
  intros [v Hv]. unfold env_ABC_XYZ in Hv.
  apply lookup_insert_Some in Hv as [[<- _]|[_ Hv]]; [by left|].
  apply lookup_insert_Some in Hv as [[<- _]|[_ Hv]]; [right; by left|].
  apply lookup_insert_Some in Hv as [[<- _]|[_ Hv]]; [right; by right|].
  by rewrite lookup_empty in Hv.
Qed.

Lemma setConfiguration_discovers_ABC_XYZ_witness :
  ∃ c' st',
    setConfiguration env_ABC_XYZ None empty_state = Ok (c', st') ∧
    v_token (values (heap st') c') = Some (mkRate 300 500) ∧
    ∃ token,
      v_token (values (heap st') c') = Some token ∧
      v_tokens (values (heap st') c') =
      Some {[ "ABC" := Some (mkRate 50 (BlockTimeMilliseconds token));
              "XYZ" := Some (mkRate (MaxRequestsPerSecond token) 999) ]}.
Proof.
  eexists. eexists. split; [vm_compute; reflexivity|].
  split; [vm_compute; reflexivity|].
  apply (setConfiguration_discovers_ABC_XYZ env_ABC_XYZ None empty_state).
  - exact I.
  - intros name [-> | [-> | ->]]%lookup_env_ABC_XYZ; reflexivity.
  - reflexivity.
  - reflexivity.
  - intros name [-> | [-> | ->]]%lookup_env_ABC_XYZ Hm.
    + left.
    + right. left.
    + vm_compute in Hm. by destruct Hm.
  - exact I.
  - vm_compute. reflexivity.
Defined.

(** ** Resolving a resolved configuration *)

Lemma envRate_idemp env a b c :
  envRate env a b (envRate env a b c) = envRate env a b c.
Proof.
  unfold envRate. simpl. by destruct (getInt64Env env a), (getInt64Env env b).
Qed.

Lemma envRate_absorb env a b a' b' c :
  envRate env a b (envRate env a' b' (envRate env a b (envRate env a' b' c)))
  = envRate env a b (envRate env a' b' c).
Proof.
  unfold envRate. simpl.
  by destruct (getInt64Env env a), (getInt64Env env b),
              (getInt64Env env a'), (getInt64Env env b').
Qed.

Lemma overrides_app env disable maxKey blockKey i l1 l2 :
  (i < length l1)%nat →
  overrides env disable maxKey blockKey i (l1 ++ l2)
  = overrides env disable maxKey blockKey i l1 ++ l2.
Proof. intros Hi. unfold overrides. destruct disable; [done|]. by apply alter_app_l. Qed.

(** Applying the environment to the two policies a second time changes
    nothing, also when the two pointers are one. *)
Lemma overrides_twice env disable a b a' b' i j h :
  overrides env disable a b i
    (overrides env disable a' b' j
       (overrides env disable a b i (overrides env disable a' b' j h)))
  = overrides env disable a b i (overrides env disable a' b' j h).
Proof.
  unfold overrides. destruct disable; [done|].
  destruct (decide (i = j)) as [->|Hne].
  - rewrite !list_alter_alter_eq. apply list_alter_ext; [|done].
    intros c _. simpl. apply envRate_absorb.
  - rewrite (list_alter_alter_ne (envRate env a' b') (envRate env a b)) by done.
    rewrite list_alter_alter_eq.
    rewrite (list_alter_alter_eq (envRate env a' b')).
    apply list_alter_ext; [|apply list_alter_ext; [|done]].
    + intros c _. simpl. apply envRate_idemp.
    + intros c _. simpl. apply envRate_idemp.
Qed.

Lemma rates_heap_again env config st st1 :
  caller_ok st config →
  heap st1 = resolved_heap env config st →
  resolved_ip (Some (resolved env config st)) st1 = resolved_ip config st ∧
  resolved_token (Some (resolved env config st)) st1 = resolved_token config st ∧
  rates_heap env (Some (resolved env config st)) st1
  = resolved_heap env config st ++ default_cells.
Proof.
  intros Hok Hh. split; [done|]. split; [done|].
  unfold rates_heap. simpl. unfold resolved_ip at 1, resolved_token at 1. simpl.
  rewrite Hh. unfold resolved_heap at 1. rewrite <- app_assoc.
  pose proof (resolved_ip_lt _ _ Hok) as Hip.
  pose proof (resolved_token_lt _ _ Hok) as Htok.
  rewrite overrides_app by (by rewrite length_rates_heap).
  rewrite overrides_app by (by rewrite length_overrides, length_rates_heap).
  unfold resolved_heap. rewrite <- app_assoc. f_equal.
  unfold rates_heap. apply overrides_twice.
Qed.

Lemma token_cell_again env config st st1 :
  caller_ok st config →
  heap st1 = resolved_heap env config st →
  token_cell env (Some (resolved env config st)) st1 = token_cell env config st.
Proof.
  intros Hok Hh. unfold token_cell at 1.
  destruct (rates_heap_again env config st st1 Hok Hh) as (_ & -> & ->).
  unfold resolved_heap. rewrite <- app_assoc.
  by rewrite (lookup_app_l_Some _ _ _ _ (token_cell_lookup env config st Hok)).
Qed.

Lemma resolved_debug_again env config st :
  resolved_debug env (resolved env config st)
  = resolved_debug env (effective config st).
Proof.
  unfold resolved_debug. simpl. unfold resolved_debug.
  destruct (DisableEnvs (effective config st)); [done|].
  by destruct (getBoolEnv env envKeyDebug).
Qed.

Lemma or_default_idemp {A} (x d : option A) :
  or_default (or_default x d) d = or_default x d.
Proof. by destruct x, d. Qed.

Lemma cell_app_ok h h' p :
  ptr_ok (length h) p → cell (h ++ h') p = cell h p.
Proof. destruct p as [i|]; simpl; [|done]. intros Hi. by apply lookup_app_l. Qed.

(** The order in which the second loop visits the discovered identifiers
    does not show in the values of the mapping. *)
Lemma discovered_values_order (rate : string → RateLimiterRateConfig) l l'
    (h : list RateLimiterRateConfig) (m : gmap string (option ptr)) k :
  l ≡ₚ l' →
  map_Forall (fun _ p => ptr_ok (length h) p) m →
  cell (h ++ (rate <$> l)) <$> (discovered l (length h) m !! k) =
  cell (h ++ (rate <$> l')) <$> (discovered l' (length h) m !! k).
Proof.
  intros Hperm Hm. rewrite !lookup_values_discovered.
  destruct (decide (k ∈ l)) as [Hin|Hin].
  - rewrite decide_True; [done|]. by rewrite <- Hperm.
  - rewrite decide_False by by rewrite <- Hperm.
    destruct (m !! k) as [p|] eqn:Hk; simpl; [|done].
    by rewrite !cell_app_ok by apply (Hm k _ Hk).
Qed.

Lemma lookup_discovered_notin l :
  ∀ n (m : gmap string (option ptr)) k,
    k ∉ l → discovered l n m !! k = m !! k.
Proof.
  induction l as [|k0 l IHl]; intros n m k Hk; simpl; [done|].
  rewrite IHl by (intros ?; apply Hk; by right).
  apply lookup_insert_ne. intros ->. apply Hk. left.
Qed.

Lemma resolved_heap_again env config st st1 :
  caller_ok st config →
  heap st1 = resolved_heap env config st →
  ∃ cells, resolved_heap env (Some (resolved env config st)) st1
           = resolved_heap env config st ++ cells.
Proof.
  intros Hok Hh. unfold resolved_heap at 1.
  destruct (rates_heap_again env config st st1 Hok Hh) as (_ & _ & ->).
  rewrite <- app_assoc. eauto.
Qed.

Lemma resolved_tokens_again env config st st1 :
  caller_ok st config →
  heap st1 = resolved_heap env config st →
  map_values (resolved_heap env (Some (resolved env config st)) st1)
             (resolved_map env (Some (resolved env config st)) st1)
  = map_values (resolved_heap env config st) (resolved_map env config st).
Proof.
  intros Hok Hh.
  assert (caller_map (Some (resolved env config st)) st1 = resolved_map env config st)
    as Hcm by done.
  destruct (caller_map config st) as [|m0] eqn:Hm0.
  { rewrite resolved_tokens_nil; [by rewrite resolved_tokens_nil|].
    rewrite Hcm. unfold resolved_map. by rewrite Hm0. }
  apply map_eq. intros k.
  rewrite (resolved_tokens_lookup env config st m0) by done.
  rewrite (resolved_tokens_lookup env (Some (resolved env config st)) st1
             (discovered (getCustomTokenList env) (length (rates_heap env config st))
                (complete (Some (resolved_token config st)) m0)))
    by (rewrite Hcm; unfold resolved_map; by rewrite Hm0).
  rewrite token_cell_again by done.
  destruct (decide (k ∈ getCustomTokenList env)) as [Hin|Hin]; [done|].
  destruct (rates_heap_again env config st st1 Hok Hh) as (_ & -> & _).
  unfold complete at 1. rewrite lookup_fmap, lookup_discovered_notin by done.
  destruct (resolved_heap_again env config st st1 Hok Hh) as [cells ->].
  pose proof (complete_ok (length (resolved_heap env config st))
                (Some (resolved_token config st)) m0) as Hc.
  unfold complete in *. rewrite lookup_fmap.
  destruct (m0 !! k) as [v|] eqn:Hv; simpl; [|done].
  rewrite or_default_idemp. f_equal. apply cell_app_ok.
  apply (Hc ltac:(pose proof (resolved_ok env config st Hok) as (_ & H & _); exact H)
            ltac:(pose proof (caller_map_ok _ _ Hok) as H; rewrite Hm0 in H;
                  intros k' p' Hk'; eapply ptr_ok_mono; [|by apply (H k' _ Hk')];
                  rewrite length_resolved_heap; lia)
            k).
  by rewrite lookup_fmap, Hv.
Qed.

(** C9: resolving the result of a resolution again, in the same environment,
    returns a configuration with the same values: the same IP and Token
    policies, the same custom-token policies and the same debug flag.  The
    backend and the response writer are not compared. *)
Theorem setConfiguration_idempotent (env : Env) (config : option RateLimiterConfig)
    (st : State) (c1 : RateLimiterConfig) (st1 : State) :
  caller_ok st config →
  setConfiguration env config st = Ok (c1, st1) →
  ∃ c2 st2,
    setConfiguration env (Some c1) st1 = Ok (c2, st2) ∧
    values (heap st2) c2 = values (heap st1) c1.
Proof.
  intros Hok HOk.
  destruct (setConfiguration_Ok _ _ _ _ _ Hok HOk) as (Hn & Hr & -> & Hh).
  assert (caller_ok st1 (Some (resolved env config st))) as Hok1.
  { simpl. rewrite Hh. by apply resolved_ok. }
  assert (¬ nil_map_assignment env (Some (resolved env config st)) st1) as Hn1.
  { intros [Hm Hne]. apply Hn. split; [|done].
    change (resolved_map env config st = NilMap) in Hm.
    unfold resolved_map in Hm. by destruct (caller_map config st). }
  destruct (runs_setConfiguration env _ st1 Hok1 Hn1 Hr) as [tr H2].
  eexists. eexists. split; [exact H2|]. simpl heap. rewrite Hh.
  destruct (rates_heap_again env config st st1 Hok Hh) as (Hip & Htok & _).
  destruct (resolved_heap_again env config st st1 Hok Hh) as [cells Hcells].
  pose proof (resolved_ok env config st Hok) as (Hpi & Hpt & _).
  unfold values. f_equal.
  - simpl IP. rewrite Hip, Hcells. by apply cell_app_ok.
  - simpl Token. rewrite Htok, Hcells. by apply cell_app_ok.
  - simpl CustomTokens. simpl. f_equal. by apply resolved_tokens_again.
  - apply resolved_debug_again.
Qed.

Lemma shared_config_ok : caller_ok shared_state (Some shared_config).
Proof.
  split; [simpl; lia|]. split; [simpl; lia|]. simpl.
  apply map_Forall_insert_2; [done|]. apply map_Forall_singleton. simpl. lia.
Qed.

Lemma setConfiguration_idempotent_witness :
  ∃ c1 st1 c2 st2,
    setConfiguration env_ABC_XYZ (Some shared_config) shared_state = Ok (c1, st1) ∧
    setConfiguration env_ABC_XYZ (Some c1) st1 = Ok (c2, st2) ∧
    values (heap st2) c2 = values (heap st1) c1.
Proof.
  eexists. eexists.
  edestruct (setConfiguration_idempotent env_ABC_XYZ (Some shared_config) shared_state)
    as (c2 & st2 & H2 & Hv);
    [exact shared_config_ok|vm_compute; reflexivity|].
  exists c2, st2. split; [vm_compute; reflexivity|]. split; [exact H2|exact Hv].
Defined.

(** ** What the discoverer yields *)

(** C5, as stated, fails: the discoverer yields the empty identifier, and an
    identifier that holds a suffix of the pattern. *)
Lemma getCustomTokenList_empty_identifier :
  getCustomTokenList env_empty_id = [""] ∧
  getCustomTokenList env_suffix_id = ["A_BLOCK_TIME"].
Proof. split; vm_compute; reflexivity. Qed.

(** C5, amended: every identifier that the discoverer yields comes from a
    variable whose name is RATE_LIMITER_TOKEN_, the identifier, and
    _MAX_REQUESTS or _BLOCK_TIME; the identifier holds no line feed, and may
    be empty or hold underscores. *)
Theorem getCustomTokenList_sound (env : Env) (id : string) :
  env_names_ok env →
  id ∈ getCustomTokenList env →
  has_char line_feed id = false ∧
  ∃ name, is_Some (env !! name) ∧
          (name = "RATE_LIMITER_TOKEN_" +:+ id +:+ "_MAX_REQUESTS" ∨
           name = "RATE_LIMITER_TOKEN_" +:+ id +:+ "_BLOCK_TIME").
Proof.
  intros Hok (name & Hn & Hm)%elem_of_getCustomTokenList_names; [|done].
  apply envKeyRegex_submatch_Some in Hm as [Hlf Hname]. split; [done|].
  exists name. split; [done|]. exact Hname.
Qed.

Lemma env_ABC_XYZ_names_ok : env_names_ok env_ABC_XYZ.
Proof. intros name [-> | [-> | ->]]%lookup_env_ABC_XYZ; reflexivity. Qed.

Lemma getCustomTokenList_sound_witness :
  has_char line_feed "ABC" = false ∧
  ∃ name, is_Some (env_ABC_XYZ !! name) ∧
          (name = "RATE_LIMITER_TOKEN_" +:+ "ABC" +:+ "_MAX_REQUESTS" ∨
           name = "RATE_LIMITER_TOKEN_" +:+ "ABC" +:+ "_BLOCK_TIME").
Proof.
  apply (getCustomTokenList_sound env_ABC_XYZ "ABC").
  - exact env_ABC_XYZ_names_ok.
  - vm_compute. left.
Defined.

(** ** Completion of nil entries *)

(** C7, as stated, fails: with a variable of the environment for the key,
    the nil entry does not resolve to the resolved Token policy. *)
Lemma setConfiguration_nil_entry_overridden :
  ∃ c' st' tokens,
    setConfiguration env_ABC_only (Some config_ABC_nil) empty_state = Ok (c', st') ∧
    v_token (values (heap st') c') = Some (mkRate 200 500) ∧
    v_tokens (values (heap st') c') = Some tokens ∧
    tokens !! "ABC" = Some (Some (mkRate 50 500)) ∧
    tokens !! "ABC" ≠ Some (v_token (values (heap st') c')).
Proof.
  eexists. eexists. eexists.
  split; [vm_compute; reflexivity|].
  split; [vm_compute; reflexivity|].
  split; [reflexivity|].
  split; [vm_compute; reflexivity|].
  vm_compute. discriminate.
Qed.

(** C7, amended: after a resolution that returns, no value of the
    custom-token mapping is absent; and an entry that the caller left nil,
    for a key that the discoverer does not yield from the environment, is
    the resolved Token policy. *)
Theorem setConfiguration_completes_nil_entries (env : Env)
    (config : option RateLimiterConfig) (st : State)
    (c' : RateLimiterConfig) (st' : State) :
  caller_ok st config →
  setConfiguration env config st = Ok (c', st') →
  ∃ token tokens,
    v_token (values (heap st') c') = Some token ∧
    v_tokens (values (heap st') c') = Some tokens ∧
    (∀ k v, tokens !! k = Some v → is_Some v) ∧
    (∀ c m key,
       config = Some c → CustomTokens c = Some (Map m) → m !! key = Some None →
       key ∉ getCustomTokenList env →
       tokens !! key = Some (Some token)).
Proof.
  intros Hok HOk.
  destruct (setConfiguration_Ok _ _ _ _ _ Hok HOk) as (_ & _ & -> & ->).
  exists (token_cell env config st). eexists.
  split; [by apply resolved_token_value|]. split; [reflexivity|].
  pose proof (resolved_ok env config st Hok) as (_ & Htok & _). simpl in Htok.
  split.
  - intros k v. destruct (caller_map config st) as [|m0] eqn:Hm0.
    { rewrite resolved_tokens_nil by done. by rewrite lookup_empty. }
    rewrite (resolved_tokens_lookup env config st m0) by done.
    destruct (decide (k ∈ getCustomTokenList env)); [intros [= <-]; eauto|].
    unfold complete. rewrite lookup_fmap.
    destruct (m0 !! k) as [o|] eqn:Ho; simpl; [|done].
    intros [= <-].
    pose proof (caller_map_ok _ _ Hok) as Hm. rewrite Hm0 in Hm.
    pose proof (Hm k _ Ho) as Hp. rewrite length_resolved_heap in *.
    destruct o as [p|]; simpl in *; apply lookup_lt_is_Some;
      rewrite length_resolved_heap; lia.
  - intros c m key -> Hm Hkey Hnot.
    rewrite (resolved_tokens_lookup env (Some c) st m)
      by (unfold caller_map, effective; simpl; by rewrite Hm).
    rewrite decide_False by done.
    unfold complete. rewrite lookup_fmap, Hkey. simpl. f_equal.
    by apply resolved_token_value.
Qed.

Lemma setConfiguration_completes_nil_entries_witness :
  ∃ c' st' tokens,
    setConfiguration ∅ (Some config_ABC_nil) empty_state = Ok (c', st') ∧
    v_token (values (heap st') c') = Some (mkRate 200 500) ∧
    v_tokens (values (heap st') c') = Some tokens ∧
    tokens !! "ABC" = Some (Some (mkRate 200 500)).
Proof.
  eexists. eexists.
  edestruct (setConfiguration_completes_nil_entries ∅ (Some config_ABC_nil) empty_state)
    as (token & tokens & Ht & Hts & _ & Hkey).
  - split; [exact I|]. split; [exact I|]. simpl.
    apply map_Forall_singleton. exact I.
  - vm_compute. reflexivity.
  - exists tokens. split; [vm_compute; reflexivity|].
    assert (token = mkRate 200 500) as -> by (vm_compute in Ht; congruence).
    split; [exact Ht|]. split; [exact Hts|].
    apply (Hkey config_ABC_nil {[ "ABC" := None ]} "ABC"); try reflexivity.
    vm_compute. intros H. inversion H.
Defined.

(** ** The environment with overrides disabled *)

(** What [DisableEnvs] does keep from the environment: the IP policy, the
    Token policy and the debug flag of the result are those of the caller
    or of the default. *)
Lemma setConfiguration_disabled_rates env c st c' st' :
  caller_ok st (Some c) →
  DisableEnvs c = true →
  setConfiguration env (Some c) st = Ok (c', st') →
  v_ip (values (heap st') c')
  = cell (heap st ++ default_cells) (or_default (IP c) (Some (length (heap st)))) ∧
  v_token (values (heap st') c')
  = cell (heap st ++ default_cells) (or_default (Token c) (Some (S (length (heap st))))) ∧
  v_debug (values (heap st') c') = Debug c.
Proof.
  intros Hok Hdis HOk.
  destruct (setConfiguration_Ok _ _ _ _ _ Hok HOk) as (_ & _ & -> & ->).
  pose proof (resolved_ip_lt _ _ Hok) as Hip.
  pose proof (resolved_token_lt _ _ Hok) as Htok.
  assert (rates_heap env (Some c) st = heap st ++ default_cells) as Hr.
  { unfold rates_heap, overrides. simpl. by rewrite Hdis. }
  unfold values, resolved_heap; simpl. rewrite Hr.
  rewrite (lookup_app_l _ _ (resolved_ip (Some c) st)) by done.
  rewrite (lookup_app_l _ _ (resolved_token (Some c) st)) by done.
  unfold resolved_ip, resolved_token, resolved_debug; simpl. rewrite Hdis.
  by destruct (IP c), (Token c).
Qed.

(** C1 fails on the code: with [DisableEnvs] set, a custom token of the
    environment still enters the resolved mapping, so the result differs
    from that of the empty environment; and a request for the networked
    backend is still followed. *)
Theorem setConfiguration_disabled_reads_environment :
  (∃ c1 st1 c2 st2,
     setConfiguration env_ABC_only (Some config_disabled) empty_state = Ok (c1, st1) ∧
     setConfiguration ∅ (Some config_disabled) empty_state = Ok (c2, st2) ∧
     v_tokens (values (heap st1) c1) = Some {[ "ABC" := Some (mkRate 50 500) ]} ∧
     v_tokens (values (heap st2) c2) = Some ∅ ∧
     values (heap st1) c1 ≠ values (heap st2) c2) ∧
  setConfiguration env_redis (Some config_disabled) empty_state
  = Panic (PanicMessage redis_message).
Proof.
  split; [|vm_compute; reflexivity].
  eexists. eexists. eexists. eexists.
  split; [vm_compute; reflexivity|].
  split; [vm_compute; reflexivity|].
  split; [vm_compute; reflexivity|].
  split; [vm_compute; reflexivity|].
  vm_compute. discriminate.
Qed.

(** C2 fails on the code: with [DisableEnvs] set and no other field, the
    result is not the default policy when the environment declares a custom
    token; the mapping then holds that token. *)
Theorem setConfiguration_disabled_not_default :
  ∃ c' st',
    setConfiguration env_ABC_only (Some config_disabled) empty_state = Ok (c', st') ∧
    v_ip (values (heap st') c') = Some (mkRate 100 1000) ∧
    v_token (values (heap st') c') = Some (mkRate 200 500) ∧
    v_tokens (values (heap st') c') = Some {[ "ABC" := Some (mkRate 50 500) ]} ∧
    v_tokens (values (heap st') c') ≠ Some ∅.
Proof.
  eexists. eexists.
  split; [vm_compute; reflexivity|].
  split; [vm_compute; reflexivity|].
  split; [vm_compute; reflexivity|].
  split; [vm_compute; reflexivity|].
  vm_compute. discriminate.
Qed.

(** ** Completeness of the discoverer *)

Lemma append_cons a s t : String a s +:+ t = String a (s +:+ t).
Proof. reflexivity. Qed.

Lemma length_append s t :
  String.length (s +:+ t) = (String.length s + String.length t)%nat.
Proof.
  induction s as [|a s IHs]; [done|].
  rewrite append_cons. simpl. by rewrite IHs.
Qed.

Lemma strip_prefix_app p r : strip_prefix p (p +:+ r) = Some r.
Proof.
  induction p as [|a p IHp]; [done|].
  rewrite append_cons. simpl. by rewrite Ascii.eqb_refl.
Qed.

Lemma strip_suffix_app suf r : strip_suffix suf (r +:+ suf) = Some r.
Proof.
  induction r as [|a r IHr]; rewrite strip_suffix_unfold.
  - change (EmptyString +:+ suf) with suf. by rewrite String.eqb_refl.
  - rewrite append_cons.
    destruct (String.eqb_spec (String a (r +:+ suf)) suf) as [Heq|_].
    + apply (f_equal String.length) in Heq. simpl in Heq.
      rewrite length_append in Heq. lia.
    + by rewrite IHr.
Qed.

Lemma last_char_app s a t :
  last_char (s +:+ String a t) = last_char (String a t).
Proof.
  induction s as [|b s IHs]; [done|].
  rewrite append_cons. simpl in *. rewrite IHs.
  by destruct (s +:+ String a t) eqn:E; [destruct s; discriminate|].
Qed.

Lemma strip_suffix_max_block id :
  strip_suffix maxRequestsSuffix (id +:+ blockTimeSuffix) = None.
Proof.
  destruct (strip_suffix maxRequestsSuffix (id +:+ blockTimeSuffix)) as [r|] eqn:E;
    [|done].
  apply strip_suffix_Some in E. apply (f_equal last_char) in E.
  unfold blockTimeSuffix, maxRequestsSuffix in E.
  rewrite !last_char_app in E. vm_compute in E. discriminate.
Qed.

Lemma envKeyRegex_submatch_complete id :
  has_char line_feed id = false →
  envKeyRegex_submatch (customTokenPrefix +:+ id +:+ maxRequestsSuffix) = Some id ∧
  envKeyRegex_submatch (customTokenPrefix +:+ id +:+ blockTimeSuffix) = Some id.
Proof.
  intros Hlf. unfold envKeyRegex_submatch. rewrite !strip_prefix_app.
  rewrite strip_suffix_app, strip_suffix_max_block, strip_suffix_app, Hlf. done.
Qed.

(** X1: every variable of the environment whose name is the prefix, an
    identifier without line feed, and one of the two suffixes has its
    identifier in the list of the discoverer; and the list names no
    identifier twice, also when both variables of an identifier are set. *)
Theorem getCustomTokenList_complete (env : Env) (name id : string) :
  env_names_ok env →
  is_Some (env !! name) →
  has_char line_feed id = false →
  name = "RATE_LIMITER_TOKEN_" +:+ id +:+ "_MAX_REQUESTS" ∨
  name = "RATE_LIMITER_TOKEN_" +:+ id +:+ "_BLOCK_TIME" →
  id ∈ getCustomTokenList env ∧ NoDup (getCustomTokenList env).
Proof.
  intros Hok Hname Hlf Hform. split; [|unfold getCustomTokenList; apply NoDup_elements].
  apply elem_of_getCustomTokenList_names; [done|]. exists name. split; [done|].
  destruct (envKeyRegex_submatch_complete id Hlf) as [Hmax Hblock].
  by destruct Hform as [-> | ->].
Qed.

Lemma getCustomTokenList_complete_witness :
  "XYZ" ∈ getCustomTokenList env_ABC_XYZ ∧ NoDup (getCustomTokenList env_ABC_XYZ).
Proof.
  apply (getCustomTokenList_complete env_ABC_XYZ "RATE_LIMITER_TOKEN_XYZ_BLOCK_TIME" "XYZ").
  - exact env_ABC_XYZ_names_ok.
  - vm_compute. eexists. reflexivity.
  - reflexivity.
  - right. reflexivity.
Defined.

(** ** Precedence between the caller and the environment *)

Lemma caller_rate_ip c st r :
  caller_ok st (Some c) →
  caller_rate st (IP c) (mkRate 100 1000) r →
  (heap st ++ default_cells) !! resolved_ip (Some c) st = Some r.
Proof.
  intros (Hip & _) Hr. unfold resolved_ip, effective. simpl.
  destruct (IP c) as [i|]; simpl in *.
  - by apply lookup_app_l_Some.
  - subst r. apply (list_lookup_middle (heap st) [mkRate 200 500]). done.
Qed.

Lemma caller_rate_token c st r :
  caller_ok st (Some c) →
  caller_rate st (Token c) (mkRate 200 500) r →
  (heap st ++ default_cells) !! resolved_token (Some c) st = Some r.
Proof.
  intros (_ & Htok & _) Hr. unfold resolved_token, effective. simpl.
  destruct (Token c) as [i|]; simpl in *.
  - by apply lookup_app_l_Some.
  - subst r. rewrite lookup_app_r by lia.
    by replace (S (length (heap st)) - length (heap st))%nat with 1%nat by lia.
Qed.

Lemma not_shared_ne c st :
  caller_ok st (Some c) →
  not_shared c →
  resolved_token (Some c) st ≠ resolved_ip (Some c) st.
Proof.
  intros (Hip & Htok & _) Hns. unfold resolved_ip, resolved_token, effective. simpl.
  destruct (IP c) as [i|] eqn:Ei, (Token c) as [j|] eqn:Ej; simpl in *; try lia.
  intros ->. by apply (Hns i).
Qed.

(** X2: with the environment enabled and distinct objects for the IP and
    the Token policy, each field of each policy is decided on its own: the
    variable of the environment when it is set to an integer, otherwise the
    caller's value, otherwise the default.  A caller's maximum can so end
    up beside a block time of the environment. *)
Theorem setConfiguration_rate_precedence (env : Env) (c : RateLimiterConfig)
    (st : State) (ip0 token0 : RateLimiterRateConfig)
    (c' : RateLimiterConfig) (st' : State) :
  caller_ok st (Some c) →
  DisableEnvs c = false →
  not_shared c →
  caller_rate st (IP c) (mkRate 100 1000) ip0 →
  caller_rate st (Token c) (mkRate 200 500) token0 →
  setConfiguration env (Some c) st = Ok (c', st') →
  v_ip (values (heap st') c') =
  Some (mkRate
          (default (MaxRequestsPerSecond ip0)
             (getInt64Env env envKeyIPMaxRequestsPerSecond))
          (default (BlockTimeMilliseconds ip0)
             (getInt64Env env envKeyIPBlockTimeMilliseconds))) ∧
  v_token (values (heap st') c') =
  Some (mkRate
          (default (MaxRequestsPerSecond token0)
             (getInt64Env env envKeyTokenMaxRequestsPerSecond))
          (default (BlockTimeMilliseconds token0)
             (getInt64Env env envKeyTokenBlockTimeMilliseconds))).
Proof.
  intros Hok Hdis Hns Hip0 Htok0 HOk.
  destruct (setConfiguration_Ok _ _ _ _ _ Hok HOk) as (_ & _ & -> & ->).
  pose proof (resolved_ip_lt _ _ Hok) as Hip.
  pose proof (resolved_token_lt _ _ Hok) as Htok.
  pose proof (not_shared_ne _ _ Hok Hns) as Hne.
  unfold values, resolved_heap; simpl.
  rewrite (lookup_app_l _ _ (resolved_ip (Some c) st))
    by by rewrite length_rates_heap.
  rewrite (lookup_app_l _ _ (resolved_token (Some c) st))
    by by rewrite length_rates_heap.
  unfold rates_heap, overrides. simpl. rewrite Hdis. split.
  - rewrite list_lookup_alter_ne by done. rewrite list_lookup_alter_eq.
    by rewrite (caller_rate_ip c st ip0).
  - rewrite list_lookup_alter_eq, list_lookup_alter_ne by done.
    by rewrite (caller_rate_token c st token0).
Qed.

Lemma own_config_ok : caller_ok own_state (Some own_config).
Proof.
  split; [simpl; lia|]. split; [simpl; lia|]. simpl.
  apply map_Forall_insert_2; [simpl; lia|]. apply map_Forall_singleton. simpl. lia.
Qed.

Lemma setConfiguration_rate_precedence_witness :
  ∃ c' st',
    setConfiguration env_overrides (Some own_config) own_state = Ok (c', st') ∧
    v_ip (values (heap st') c') = Some (mkRate 10 5000) ∧
    v_token (values (heap st') c') = Some (mkRate 300 40).
Proof.
  eexists. eexists. split; [vm_compute; reflexivity|].
  eapply (setConfiguration_rate_precedence env_overrides own_config own_state
            (mkRate 10 20) (mkRate 30 40)).
  - exact own_config_ok.
  - reflexivity.
  - intros p [= <-]. discriminate.
  - reflexivity.
  - reflexivity.
  - vm_compute. reflexivity.
Defined.

(** X3: when the caller gives one object as both the IP and the Token
    policy, with the environment enabled, the two resolved policies are one
    policy: the variables of the Token policy are written after those of
    the IP policy and win over them. *)
Theorem setConfiguration_shared_policy (env : Env) (c : RateLimiterConfig)
    (st : State) (p : ptr) (r : RateLimiterRateConfig)
    (c' : RateLimiterConfig) (st' : State) :
  IP c = Some p →
  Token c = Some p →
  heap st !! p = Some r →
  caller_ok st (Some c) →
  DisableEnvs c = false →
  setConfiguration env (Some c) st = Ok (c', st') →
  v_ip (values (heap st') c') = v_token (values (heap st') c') ∧
  v_token (values (heap st') c') =
  Some (mkRate
          (default (default (MaxRequestsPerSecond r)
                      (getInt64Env env envKeyIPMaxRequestsPerSecond))
             (getInt64Env env envKeyTokenMaxRequestsPerSecond))
          (default (default (BlockTimeMilliseconds r)
                      (getInt64Env env envKeyIPBlockTimeMilliseconds))
             (getInt64Env env envKeyTokenBlockTimeMilliseconds))).
Proof.
  intros Hip Htok Hr Hok Hdis HOk.
  destruct (setConfiguration_Ok _ _ _ _ _ Hok HOk) as (_ & _ & -> & ->).
  pose proof (resolved_token_lt _ _ Hok) as Hlt.
  assert (resolved_ip (Some c) st = p) as Hpi
    by (unfold resolved_ip, effective; simpl; by rewrite Hip).
  assert (resolved_token (Some c) st = p) as Hpt
    by (unfold resolved_token, effective; simpl; by rewrite Htok).
  unfold values, resolved_heap; simpl. rewrite Hpi, Hpt in *.
  split; [done|].
  rewrite lookup_app_l by by rewrite length_rates_heap.
  unfold rates_heap, overrides. simpl. rewrite Hdis, Hpi, Hpt.
  rewrite !list_lookup_alter_eq, (lookup_app_l_Some _ _ _ _ Hr). done.
Qed.

Lemma setConfiguration_shared_policy_witness :
  ∃ c' st',
    setConfiguration env_overrides (Some shared_config) shared_state = Ok (c', st') ∧
    v_ip (values (heap st') c') = v_token (values (heap st') c') ∧
    v_token (values (heap st') c') = Some (mkRate 300 5000).
Proof.
  eexists. eexists. split; [vm_compute; reflexivity|].
  eapply (setConfiguration_shared_policy env_overrides shared_config shared_state
            0%nat (mkRate 10 20)).
  - reflexivity.
  - reflexivity.
  - reflexivity.
  - exact shared_config_ok.
  - reflexivity.
  - vm_compute. reflexivity.
Defined.

(** ** What the resolution leaves alone *)

Lemma lookup_overrides_ne env disable maxKey blockKey i (h : list RateLimiterRateConfig) j :
  i ≠ j → overrides env disable maxKey blockKey i h !! j = h !! j.
Proof.
  intros Hne. unfold overrides. destruct disable; [done|].
  by apply list_lookup_alter_ne.
Qed.

(** X4: a resolution that returns changes no policy object of the caller
    other than those that end up as the IP and the Token policy: every other
    cell holds what it held, and cells are only added. *)
Theorem setConfiguration_frame (env : Env) (config : option RateLimiterConfig)
    (st : State) (c' : RateLimiterConfig) (st' : State)
    (j : ptr) (r : RateLimiterRateConfig) :
  caller_ok st config →
  setConfiguration env config st = Ok (c', st') →
  heap st !! j = Some r →
  IP c' ≠ Some j →
  Token c' ≠ Some j →
  heap st' !! j = Some r ∧ (length (heap st) ≤ length (heap st'))%nat.
Proof.
  intros Hok HOk Hj Hip Htok.
  destruct (setConfiguration_Ok _ _ _ _ _ Hok HOk) as (_ & _ & -> & ->).
  simpl in Hip, Htok. split; [|rewrite length_resolved_heap; lia].
  unfold resolved_heap. apply lookup_app_l_Some. unfold rates_heap.
  rewrite !lookup_overrides_ne by congruence.
  by apply lookup_app_l_Some.
Qed.

Lemma setConfiguration_frame_witness :
  ∃ c' st',
    setConfiguration env_overrides (Some own_config) own_state = Ok (c', st') ∧
    heap st' !! 3%nat = Some (mkRate 7 8) ∧
    (length (heap own_state) ≤ length (heap st'))%nat.
Proof.
  eexists. eexists. split; [vm_compute; reflexivity|].
  eapply (setConfiguration_frame env_overrides (Some own_config) own_state).
  - exact own_config_ok.
  - vm_compute. reflexivity.
  - reflexivity.
  - discriminate.
  - discriminate.
Defined.

(** X5: with [DisableEnvs] set, a resolution that returns changes no policy
    object of the caller at all: the heap it leaves is the caller's heap
    followed by new cells. *)
Theorem setConfiguration_disabled_frame (env : Env) (c : RateLimiterConfig)
    (st : State) (c' : RateLimiterConfig) (st' : State) :
  caller_ok st (Some c) →
  DisableEnvs c = true →
  setConfiguration env (Some c) st = Ok (c', st') →
  ∃ cells, heap st' = heap st ++ cells.
Proof.
  intros Hok Hdis HOk.
  destruct (setConfiguration_Ok _ _ _ _ _ Hok HOk) as (_ & _ & _ & ->).
  unfold resolved_heap, rates_heap, overrides. simpl. rewrite Hdis.
  rewrite <- app_assoc. eauto.
Qed.

Lemma setConfiguration_disabled_frame_witness :
  ∃ c' st' cells,
    setConfiguration env_ABC_only (Some config_disabled) empty_state = Ok (c', st') ∧
    heap st' = heap empty_state ++ cells.
Proof.
  eexists. eexists.
  edestruct (setConfiguration_disabled_frame env_ABC_only config_disabled empty_state)
    as [cells Hcells]; [|reflexivity|vm_compute; reflexivity|].
  - split; [exact I|]. split; exact I.
  - exists cells. split; [vm_compute; reflexivity|exact Hcells].
Defined.

(** ** When the resolution returns *)

(** X6: for a caller whose pointers are live, resolution panics in two
    cases only: a token discovered in the environment is assigned to a nil
    map of the caller, which is the panic of an assignment to a nil map; or
    else the networked backend is selected without an address, which is the
    panic with the message.  In every other case it returns. *)
Theorem setConfiguration_returns_or_panics (env : Env)
    (config : option RateLimiterConfig) (st : State) :
  caller_ok st config →
  match setConfiguration env config st with
  | Ok _ =>
      ¬ nil_map_assignment env config st ∧ ¬ redis_address_missing env
  | Panic v =>
      (nil_map_assignment env config st ∧ v = NilMapAssignment) ∨
      (¬ nil_map_assignment env config st ∧ redis_address_missing env ∧
       v = PanicMessage redis_message)
  end.
Proof.
  intros Hok.
  destruct (setConfiguration_outcome env config st Hok)
    as [[Hn H]|[(Hn & Hr & H)|(Hn & Hr & [tr H])]]; rewrite H; auto.
Qed.

Lemma config_nil_map_ok : caller_ok empty_state (Some config_nil_map).
Proof. split; [exact I|]. split; exact I. Qed.

Lemma setConfiguration_returns_or_panics_witness :
  match setConfiguration env_ABC_only (Some config_nil_map) empty_state with
  | Ok _ =>
      ¬ nil_map_assignment env_ABC_only (Some config_nil_map) empty_state ∧
      ¬ redis_address_missing env_ABC_only
  | Panic v =>
      (nil_map_assignment env_ABC_only (Some config_nil_map) empty_state ∧
       v = NilMapAssignment) ∨
      (¬ nil_map_assignment env_ABC_only (Some config_nil_map) empty_state ∧
       redis_address_missing env_ABC_only ∧ v = PanicMessage redis_message)
  end.
Proof.
  apply (setConfiguration_returns_or_panics env_ABC_only (Some config_nil_map)
           empty_state).
  exact config_nil_map_ok.
Defined.

(** ** The backend, the response writer and the debug flag *)

(** X7: when RATE_LIMITER_USE_REDIS holds a truthy literal and the address
    is set, a resolution that returns installs a networked backend built
    from the address, the password or the empty text, and the database index
    or 0; it replaces a backend of the caller, and [DisableEnvs] does not
    prevent it. *)
Theorem setConfiguration_redis_backend (env : Env)
    (config : option RateLimiterConfig) (st : State) (address : string)
    (c' : RateLimiterConfig) (st' : State) :
  caller_ok st config →
  getBoolEnv env envUseRedis = Some true →
  env !! envRedisAddress = Some address →
  setConfiguration env config st = Ok (c', st') →
  adapter_kind <$> StorageAdapter c' =
  Some (RedisStorage address
          (default "" (env !! envRedisPassword))
          (default 0 (getInt64Env env envRedisDB))).
Proof.
  intros Hok Hu Ha HOk.
  destruct (setConfiguration_Ok _ _ _ _ _ Hok HOk) as (_ & _ & -> & _).
  simpl. unfold resolved_adapter, use_redis, getStringEnv. by rewrite Hu, Ha.
Qed.

Lemma setConfiguration_redis_backend_witness :
  ∃ c' st',
    setConfiguration env_redis_full (Some own_config) own_state = Ok (c', st') ∧
    adapter_kind <$> StorageAdapter c' = Some (RedisStorage "localhost:6379" "" 3).
Proof.
  eexists. eexists. split; [vm_compute; reflexivity|].
  eapply (setConfiguration_redis_backend env_redis_full (Some own_config) own_state).
  - exact own_config_ok.
  - vm_compute. reflexivity.
  - vm_compute. reflexivity.
  - vm_compute. reflexivity.
Defined.

(** X8: when the networked backend is not selected, a resolution that
    returns keeps the backend of the caller and installs the in-memory
    default when the caller gave none; the response writer is the caller's,
    or the default writer when the caller gave none, whatever the
    environment holds. *)
Theorem setConfiguration_backend_and_writer (env : Env) (c : RateLimiterConfig)
    (st : State) (c' : RateLimiterConfig) (st' : State) :
  caller_ok st (Some c) →
  setConfiguration env (Some c) st = Ok (c', st') →
  (getBoolEnv env envUseRedis ≠ Some true →
   match StorageAdapter c with
   | Some a => StorageAdapter c' = Some a
   | None => adapter_kind <$> StorageAdapter c' = Some MemoryStorage
   end) ∧
  match ResponseWriter c with
  | Some w => ResponseWriter c' = Some w
  | None => writer_kind <$> ResponseWriter c' = Some DefaultWriter
  end.
Proof.
  intros Hok HOk.
  destruct (setConfiguration_Ok _ _ _ _ _ Hok HOk) as (_ & _ & -> & _).
  simpl. unfold resolved_adapter, resolved_writer, use_redis, effective. simpl. split.
  - intros Hu. destruct (getBoolEnv env envUseRedis) as [[|]|]; try done;
      by destruct (StorageAdapter c).
  - by destruct (ResponseWriter c).
Qed.

Lemma setConfiguration_backend_and_writer_witness :
  ∃ c' st',
    setConfiguration env_overrides (Some own_config) own_state = Ok (c', st') ∧
    StorageAdapter c' = Some (mkAdapter 7 CallerStorage) ∧
    ResponseWriter c' = Some (mkWriter 8 CallerWriter).
Proof.
  eexists. eexists. split; [vm_compute; reflexivity|].
  edestruct (setConfiguration_backend_and_writer env_overrides own_config own_state)
    as [Ha Hw]; [exact own_config_ok|vm_compute; reflexivity|].
  split; [|exact Hw]. apply Ha. vm_compute. discriminate.
Defined.

(** X9: the debug flag of a resolution that returns is the boolean of
    RATE_LIMITER_DEBUG when the environment is enabled and the variable holds
    a boolean literal, also when that turns off a flag that the caller set;
    otherwise it is the caller's flag.  [DisableEnvs] comes back as the
    caller gave it. *)
Theorem setConfiguration_debug (env : Env) (c : RateLimiterConfig)
    (st : State) (c' : RateLimiterConfig) (st' : State) :
  caller_ok st (Some c) →
  setConfiguration env (Some c) st = Ok (c', st') →
  DisableEnvs c' = DisableEnvs c ∧
  Debug c' =
  match getBoolEnv env envKeyDebug with
  | Some debug => if DisableEnvs c then Debug c else debug
  | None => Debug c
  end.
Proof.
  intros Hok HOk.
  destruct (setConfiguration_Ok _ _ _ _ _ Hok HOk) as (_ & _ & -> & _).
  simpl. split; [done|]. unfold resolved_debug, effective. simpl.
  by destruct (DisableEnvs c), (getBoolEnv env envKeyDebug).
Qed.

Lemma setConfiguration_debug_witness :
  ∃ c' st',
    setConfiguration env_overrides (Some own_config) own_state = Ok (c', st') ∧
    DisableEnvs c' = false ∧ Debug c' = false.
Proof.
  eexists. eexists. split; [vm_compute; reflexivity|].
  eapply (setConfiguration_debug env_overrides own_config own_state).
  - exact own_config_ok.
  - vm_compute. reflexivity.
Defined.

(** ** Custom tokens of the caller and of the environment *)

(** X10: the policy of an identifier that the discoverer yields does not
    depend on an entry that the caller gave for it: each field is the
    variable of that identifier when it is set to an integer, and otherwise
    the field of the resolved Token policy, never the field of the caller's
    entry. *)
Theorem setConfiguration_discovered_entry (env : Env)
    (config : option RateLimiterConfig) (st : State) (key : string)
    (c' : RateLimiterConfig) (st' : State) :
  caller_ok st config →
  key ∈ getCustomTokenList env →
  setConfiguration env config st = Ok (c', st') →
  ∃ token tokens,
    v_token (values (heap st') c') = Some token ∧
    v_tokens (values (heap st') c') = Some tokens ∧
    tokens !! key =
    Some (Some (mkRate
                  (default (MaxRequestsPerSecond token)
                     (getInt64Env env
                        ("RATE_LIMITER_TOKEN_" +:+ key +:+ "_MAX_REQUESTS")))
                  (default (BlockTimeMilliseconds token)
                     (getInt64Env env
                        ("RATE_LIMITER_TOKEN_" +:+ key +:+ "_BLOCK_TIME"))))).
Proof.
  intros Hok Hkey HOk.
  destruct (setConfiguration_Ok _ _ _ _ _ Hok HOk) as (Hn & _ & -> & ->).
  exists (token_cell env config st). eexists.
  split; [by apply resolved_token_value|]. split; [reflexivity|].
  destruct (caller_map config st) as [|m] eqn:Hm.
  { exfalso. apply Hn. split; [done|]. intros Hnil. rewrite Hnil in Hkey.
    by apply elem_of_nil in Hkey. }
  rewrite (resolved_tokens_lookup env config st m) by done.
  by rewrite decide_True by done.
Qed.

Lemma setConfiguration_discovered_entry_witness :
  ∃ c' st' tokens,
    setConfiguration env_overrides (Some own_config) own_state = Ok (c', st') ∧
    v_token (values (heap st') c') = Some (mkRate 300 40) ∧
    v_tokens (values (heap st') c') = Some tokens ∧
    tokens !! "ABC" = Some (Some (mkRate 50 40)).
Proof.
  eexists. eexists.
  edestruct (setConfiguration_discovered_entry env_overrides (Some own_config)
               own_state "ABC") as (token & tokens & Ht & Hts & Hkey).
  - exact own_config_ok.
  - vm_compute. left.
  - vm_compute. reflexivity.
  - exists tokens. split; [vm_compute; reflexivity|].
    assert (token = mkRate 300 40) as -> by (vm_compute in Ht; congruence).
    split; [exact Ht|]. split; [exact Hts|]. exact Hkey.
Defined.

(** X11: an entry of the caller that is not nil, for a key that the
    discoverer does not yield, keeps its policy, when its object is neither
    the IP nor the Token object of the caller. *)
Theorem setConfiguration_keeps_entry (env : Env) (c : RateLimiterConfig)
    (st : State) (m : gmap string (option ptr)) (key : string) (p : ptr)
    (c' : RateLimiterConfig) (st' : State) :
  caller_ok st (Some c) →
  CustomTokens c = Some (Map m) →
  m !! key = Some (Some p) →
  IP c ≠ Some p →
  Token c ≠ Some p →
  key ∉ getCustomTokenList env →
  setConfiguration env (Some c) st = Ok (c', st') →
  ∃ r tokens,
    heap st !! p = Some r ∧
    v_tokens (values (heap st') c') = Some tokens ∧
    tokens !! key = Some (Some r).
Proof.
  intros Hok Hm Hkey Hip Htok Hnot HOk.
  destruct (setConfiguration_Ok _ _ _ _ _ Hok HOk) as (_ & _ & -> & ->).
  pose proof Hok as (Hpi & Hpt & Hmap). rewrite Hm in Hmap.
  pose proof (Hmap key _ Hkey) as Hp. simpl in Hp.
  destruct (lookup_lt_is_Some_2 _ _ Hp) as [r Hr].
  exists r. eexists. split; [done|]. split; [reflexivity|].
  rewrite (resolved_tokens_lookup env (Some c) st m)
    by (unfold caller_map, effective; simpl; by rewrite Hm).
  rewrite decide_False by done.
  unfold complete. rewrite lookup_fmap, Hkey. simpl. f_equal.
  unfold resolved_heap. rewrite lookup_app_l
    by (rewrite length_rates_heap, length_app; lia).
  unfold rates_heap. rewrite !lookup_overrides_ne.
  - by apply lookup_app_l_Some.
  - unfold resolved_ip, effective. simpl.
    destruct (IP c); simpl in *; [congruence|lia].
  - unfold resolved_token, effective. simpl.
    destruct (Token c); simpl in *; [congruence|lia].
Qed.

Lemma setConfiguration_keeps_entry_witness :
  ∃ c' st' tokens,
    setConfiguration env_overrides (Some own_config) own_state = Ok (c', st') ∧
    v_tokens (values (heap st') c') = Some tokens ∧
    tokens !! "OWN" = Some (Some (mkRate 7 8)).
Proof.
  eexists. eexists.
  edestruct (setConfiguration_keeps_entry env_overrides own_config own_state
               {[ "ABC" := Some 2%nat; "OWN" := Some 3%nat ]} "OWN" 3%nat)
    as (r & tokens & Hr & Hts & Hkey).
  - exact own_config_ok.
  - reflexivity.
  - reflexivity.
  - discriminate.
  - discriminate.
  - vm_compute. intros H. inversion H as [|? ? ? H']. inversion H'.
  - vm_compute. reflexivity.
  - exists tokens. split; [vm_compute; reflexivity|]. split; [exact Hts|].
    assert (r = mkRate 7 8) as -> by (vm_compute in Hr; congruence). exact Hkey.
Defined.

(** ** Looking a token up in a resolved configuration *)

Lemma discovered_present l :
  ∀ n (m : gmap string (option ptr)),
    map_Forall (fun _ p => is_Some p) m →
    map_Forall (fun _ p => is_Some p) (discovered l n m).
Proof.
  induction l as [|k l IHl]; intros n m Hm; simpl; [done|].
  apply IHl. apply map_Forall_insert_2; [eauto|done].
Qed.

Lemma complete_present i (m : gmap string (option ptr)) :
  map_Forall (fun _ p => is_Some p) (complete (Some i) m).
Proof.
  intros k p. unfold complete. rewrite lookup_fmap.
  destruct (m !! k) as [[j|]|]; simpl; [| |done]; intros [= <-]; eauto.
Qed.

(** X12: on the configuration that a resolution returns, the lookup of any
    token returns, without a panic, a pointer that is not nil and behind
    which a policy lies; when the token is no key of the mapping, the
    pointer is the Token policy of the configuration. *)
Theorem GetRateLimiterRateConfigForToken_resolved (env : Env)
    (config : option RateLimiterConfig) (st : State)
    (c' : RateLimiterConfig) (st' : State) (token : string) :
  caller_ok st config →
  setConfiguration env config st = Ok (c', st') →
  ∃ p r ok,
    GetRateLimiterRateConfigForToken c' token st' = Ok ((Some p, ok), st') ∧
    heap st' !! p = Some r ∧
    (ok = false → Token c' = Some p).
Proof.
  intros Hok HOk.
  destruct (setConfiguration_Ok _ _ _ _ _ Hok HOk) as (_ & _ & -> & Hh).
  pose proof (resolved_ok env config st Hok) as (_ & Htok & Hmap).
  rewrite <- Hh in Htok, Hmap. simpl in Htok, Hmap.
  destruct (lookup_lt_is_Some_2 _ _ Htok) as [rt Hrt].
  unfold GetRateLimiterRateConfigForToken, map_index, bind. simpl.
  unfold resolved_map in *.
  destruct (caller_map config st) as [|m]; simpl in *.
  { exists (resolved_token config st), rt, false. done. }
  destruct (discovered _ _ _ !! token) as [v|] eqn:Hv; simpl.
  - pose proof (discovered_present _ _ _ (complete_present _ m) _ _ Hv) as [p ->].
    pose proof (Hmap _ _ Hv) as Hp. simpl in Hp.
    destruct (lookup_lt_is_Some_2 _ _ Hp) as [r Hr].
    exists p, r, true. done.
  - exists (resolved_token config st), rt, false. done.
Qed.

Lemma GetRateLimiterRateConfigForToken_resolved_witness :
  ∃ c' st' p r ok,
    setConfiguration env_overrides (Some own_config) own_state = Ok (c', st') ∧
    GetRateLimiterRateConfigForToken c' "NONE" st' = Ok ((Some p, ok), st') ∧
    heap st' !! p = Some r ∧
    (ok = false → Token c' = Some p).
Proof.
  eexists. eexists.
  edestruct (GetRateLimiterRateConfigForToken_resolved env_overrides
               (Some own_config) own_state) as (p & r & ok & Hget & Hr & Htok);
    [exact own_config_ok|vm_compute; reflexivity|].
  exists p, r, ok. split; [vm_compute; reflexivity|].
  split; [exact Hget|]. split; [exact Hr|exact Htok].
Defined.

(** ** The order of the loops *)

(** X13: the policies that the loop over the discovered identifiers leaves
    in the mapping do not depend on the order in which the identifiers are
    visited, which a [range] over a map leaves open: two orders of the same
    identifiers give mappings with the same policy at every key. *)
Theorem configureCustomToken_order (env : Env)
    (config defaultConfiguration : RateLimiterConfig) (st : State)
    (m : gmap string (option ptr)) (i : ptr) (l l' : list string) :
  l ≡ₚ l' →
  CustomTokens config = Some (Map m) →
  Token config = Some i →
  config_ok (length (heap st)) config →
  ∃ c1 st1 c2 st2,
    forEach l
      (fun config customToken =>
         configureCustomToken env config defaultConfiguration customToken)
      config st = Ok (c1, st1) ∧
    forEach l'
      (fun config customToken =>
         configureCustomToken env config defaultConfiguration customToken)
      config st = Ok (c2, st2) ∧
    values (heap st1) c1 = values (heap st2) c2.
Proof.
  intros Hperm Hm Hi (Hpi & Hpt & Hmap). rewrite Hm in Hmap. simpl in Hmap.
  pose proof Hpt as Hlt. rewrite Hi in Hlt. simpl in Hlt.
  destruct (lookup_lt_is_Some_2 _ _ Hlt) as [t Ht].
  destruct (runs_discover env defaultConfiguration l config st m i t Hm Hi Ht)
    as [tr1 H1].
  destruct (runs_discover env defaultConfiguration l' config st m i t Hm Hi Ht)
    as [tr2 H2].
  eexists. eexists. eexists. eexists.
  split; [exact H1|]. split; [exact H2|].
  unfold values. simpl. f_equal.
  - by rewrite !cell_app_ok.
  - by rewrite !cell_app_ok.
  - f_equal. apply map_eq. intros k. rewrite !lookup_fmap.
    by apply (discovered_values_order (fun k => customRate env k t)).
Qed.

Lemma configureCustomToken_order_witness :
  ∃ c1 st1 c2 st2,
    forEach ["ABC"; "XYZ"]
      (fun config customToken =>
         configureCustomToken env_ABC_XYZ config own_config customToken)
      own_config own_state = Ok (c1, st1) ∧
    forEach ["XYZ"; "ABC"]
      (fun config customToken =>
         configureCustomToken env_ABC_XYZ config own_config customToken)
      own_config own_state = Ok (c2, st2) ∧
    values (heap st1) c1 = values (heap st2) c2.
Proof.
  apply (configureCustomToken_order env_ABC_XYZ own_config own_config own_state
           {[ "ABC" := Some 2%nat; "OWN" := Some 3%nat ]} 1%nat).
  - apply perm_swap.
  - reflexivity.
  - reflexivity.
  - exact own_config_ok.
Defined.

(** ** The absent and the empty configuration *)

(** X14: resolving no configuration at all and resolving the empty
    configuration literal come to the same: both panic with the same value,
    or both return the same configuration and the same heap. *)
Theorem setConfiguration_nil_or_empty (env : Env) (st : State) :
  match setConfiguration env None st,
        setConfiguration env (Some config_empty) st with
  | Ok (c1, st1), Ok (c2, st2) => c1 = c2 ∧ heap st1 = heap st2
  | Panic v1, Panic v2 => v1 = v2
  | _, _ => False
  end.
Proof.
  assert (caller_ok st (Some config_empty)) as Hok by (split; [|split]; exact I).
  assert (∀ P, nil_map_assignment env None st → P) as Hn1 by (by intros P [? _]).
  assert (∀ P, nil_map_assignment env (Some config_empty) st → P) as Hn2
    by (by intros P [? _]).
  destruct (setConfiguration_outcome env None st I)
    as [[Hn _]|[(_ & Hr1 & H1)|(_ & Hr1 & [tr1 H1])]]; [by apply Hn1| |];
  destruct (setConfiguration_outcome env (Some config_empty) st Hok)
    as [[Hn _]|[(_ & Hr2 & H2)|(_ & Hr2 & [tr2 H2])]];
    try (by apply Hn2); rewrite H1, H2; done.
Qed.

(** ** What the resolution reads of the environment *)




Lemma custom_key_prefix customToken suffix :
  is_Some (strip_prefix packagePrefix
             ("RATE_LIMITER_TOKEN_" +:+ customToken +:+ suffix)).
Proof.
  change ("RATE_LIMITER_TOKEN_" +:+ customToken +:+ suffix)
    with (packagePrefix +:+ ("TOKEN_" +:+ customToken +:+ suffix)).
  rewrite strip_prefix_app. eauto.
Qed.

Lemma submatch_prefix name id :
  envKeyRegex_submatch name = Some id → is_Some (strip_prefix packagePrefix name).
Proof.
  intros [_ [-> | ->]]%envKeyRegex_submatch_Some; apply custom_key_prefix.
Qed.

Lemma getCustomTokenList_same env1 env2 :
  env_names_ok env1 → env_names_ok env2 →
  same_package_variables env1 env2 →
  getCustomTokenList env1 = getCustomTokenList env2.
Proof.
  intros Hok1 Hok2 Hsame.
  assert (∀ id, id ∈ getCustomTokenList env1 ↔ id ∈ getCustomTokenList env2) as Hiff.
  { intros id. rewrite !elem_of_getCustomTokenList_names by done.
    split; intros (name & Hn & Hm); exists name; (split; [|done]).
    - rewrite <- Hsame; [done|]. by eapply submatch_prefix.
    - rewrite Hsame; [done|]. by eapply submatch_prefix. }
  unfold getCustomTokenList in *. f_equal. apply set_eq. intros id.
  rewrite <- !elem_of_elements. apply Hiff.
Qed.

Lemma getInt64Env_same env1 env2 key :
  same_package_variables env1 env2 →
  is_Some (strip_prefix packagePrefix key) →
  getInt64Env env1 key = getInt64Env env2 key.
Proof. intros Hsame Hk. unfold getInt64Env. by rewrite Hsame. Qed.

Lemma getBoolEnv_same env1 env2 key :
  same_package_variables env1 env2 →
  is_Some (strip_prefix packagePrefix key) →
  getBoolEnv env1 key = getBoolEnv env2 key.
Proof. intros Hsame Hk. unfold getBoolEnv. by rewrite Hsame. Qed.


Lemma fixed_name_prefix name :
  name ∈ fixed_names → is_Some (strip_prefix packagePrefix name).
Proof.
  unfold fixed_names. rewrite !elem_of_cons, elem_of_nil.
  intros [->|[->|[->|[->|[->|[->|[->|[->|[->|[]]]]]]]]]]; by eexists.
Qed.










(** X16: the variables with a fixed name declare no custom token: in an
    environment that holds only such variables the discoverer finds nothing,
    whatever their values; RATE_LIMITER_TOKEN_MAX_REQUESTS and
    RATE_LIMITER_TOKEN_BLOCK_TIME are not read as a token with an empty
    identifier. *)
Theorem getCustomTokenList_fixed_names (env : Env) :
  (∀ name, is_Some (env !! name) → name ∈ fixed_names) →
  getCustomTokenList env = [].
Proof.
  intros Hfixed.
  assert (∀ name, name ∈ fixed_names →
            has_char "="%char name = false ∧ envKeyRegex_submatch name = None) as Hf.
  { unfold fixed_names. intros name. rewrite !elem_of_cons, elem_of_nil.
    intros [->|[->|[->|[->|[->|[->|[->|[->|[->|[]]]]]]]]]]; by vm_compute. }
  apply elem_of_nil_inv. intros id.
  rewrite elem_of_getCustomTokenList_names by (intros name Hn; by apply Hf, Hfixed).
  intros (name & Hn & Hm). destruct (Hf name (Hfixed name Hn)) as [_ Hnone].
  congruence.
Qed.

Lemma getCustomTokenList_fixed_names_witness :
  getCustomTokenList
    (<[ "RATE_LIMITER_TOKEN_MAX_REQUESTS" := "300" ]>
       (<[ "RATE_LIMITER_TOKEN_BLOCK_TIME" := "x" ]> ∅)) = [].
Proof.
  apply getCustomTokenList_fixed_names.
  intros name [v Hv].
  apply lookup_insert_Some in Hv as [[<- _]|[_ Hv]];
    [unfold fixed_names; rewrite !elem_of_cons; auto 10|].
  apply lookup_insert_Some in Hv as [[<- _]|[_ Hv]];
    [unfold fixed_names; rewrite !elem_of_cons; auto 10|].
  by rewrite lookup_empty in Hv.
Defined.

(** X17: the loop that completes the nil entries changes no policy cell, and
    the configuration it returns does not depend on the order in which the
    keys are visited. *)
Theorem completeCustomToken_order (config : RateLimiterConfig) (st : State)
    (m : gmap string (option ptr)) (l l' : list string) :
  l ≡ₚ l' →
  CustomTokens config = Some (Map m) →
  ∃ c st1 st2,
    forEach l completeCustomToken config st = Ok (c, st1) ∧
    forEach l' completeCustomToken config st = Ok (c, st2) ∧
    heap st1 = heap st ∧ heap st2 = heap st.
Proof.
  intros Hperm Hm.
  destruct (runs_complete l config st m Hm) as [tr1 H1].
  destruct (runs_complete l' config st m Hm) as [tr2 H2].
  assert (foldl (complete_step (Token config)) m l
          = foldl (complete_step (Token config)) m l') as Heq.
  { apply map_eq. intros k. rewrite !lookup_foldl_complete_step.
    destruct (decide (k ∈ l)) as [Hin|Hin].
    - rewrite decide_True; [done|]. by rewrite <- Hperm.
    - rewrite decide_False; [done|]. by rewrite <- Hperm. }
  rewrite Heq in H1. eexists. eexists. eexists.
  split; [exact H1|]. split; [exact H2|]. done.
Qed.

Lemma completeCustomToken_order_witness :
  ∃ c st1 st2,
    forEach ["K"; "ABC"] completeCustomToken shared_config shared_state = Ok (c, st1) ∧
    forEach ["ABC"; "K"] completeCustomToken shared_config shared_state = Ok (c, st2) ∧
    heap st1 = heap shared_state ∧ heap st2 = heap shared_state.
Proof.
  apply (completeCustomToken_order shared_config shared_state
           {[ "K" := None; "ABC" := Some 0%nat ]}).
  - apply perm_swap.
  - reflexivity.
Defined.

(** ** The default policy *)

Lemma overrides_unset env disable maxKey blockKey i (h : list RateLimiterRateConfig) :
  getInt64Env env maxKey = None →
  getInt64Env env blockKey = None →
  overrides env disable maxKey blockKey i h = h.
Proof.
  intros Hmax Hblock. unfold overrides. destruct disable; [done|].
  apply list_alter_id. intros c. unfold envRate. rewrite Hmax, Hblock. by destruct c.
Qed.

Lemma no_package_variables_same env :
  no_package_variables env → same_package_variables env ∅.
Proof.
  intros Hno name [r Hp]. rewrite lookup_empty.
  destruct (env !! name) as [v|] eqn:E; [|done].
  rewrite Hno in Hp by eauto. discriminate.
Qed.

(** X18: in an environment that holds no variable of the package, a caller
    that sets no field, or gives no configuration, gets the default policy:
    100 requests and 1000 ms for the IP, 200 requests and 500 ms for the
    Token, an empty mapping, the in-memory backend, the default writer and
    no debug. *)
Theorem setConfiguration_default_policy (env : Env)
    (config : option RateLimiterConfig) (st : State) :
  env_names_ok env →
  no_package_variables env →
  no_fields config →
  ∃ c' st',
    setConfiguration env config st = Ok (c', st') ∧
    v_ip (values (heap st') c') = Some (mkRate 100 1000) ∧
    v_token (values (heap st') c') = Some (mkRate 200 500) ∧
    v_tokens (values (heap st') c') = Some ∅ ∧
    Debug c' = false ∧
    adapter_kind <$> StorageAdapter c' = Some MemoryStorage ∧
    writer_kind <$> ResponseWriter c' = Some DefaultWriter.
Proof.
  intros Hnames Hno Hnf.
  pose proof (no_package_variables_same env Hno) as Hsame.
  assert (∀ key, key ∈ fixed_names → getInt64Env env key = None) as Hint.
  { intros key Hk. rewrite (getInt64Env_same env ∅) by (done || by apply fixed_name_prefix).
    unfold getInt64Env. by rewrite lookup_empty. }
  assert (∀ key, key ∈ fixed_names → getBoolEnv env key = None) as Hbool.
  { intros key Hk. rewrite (getBoolEnv_same env ∅) by (done || by apply fixed_name_prefix).
    unfold getBoolEnv. by rewrite lookup_empty. }
  assert (getCustomTokenList env = []) as Htoks.
  { by rewrite (getCustomTokenList_same env ∅) by (done || by intros name [? ?]). }
  assert (use_redis env = false) as Hredis.
  { unfold use_redis. rewrite Hbool; [done|].
    unfold fixed_names. rewrite !elem_of_cons. auto 10. }
  assert (caller_ok st config) as Hok.
  { destruct config as [c|]; [|done]. destruct Hnf as (H1 & H2 & H3 & _).
    unfold caller_ok, config_ok. by rewrite H1, H2, H3. }
  assert (caller_map config st = Map ∅) as Hmap.
  { unfold caller_map, effective. destruct config as [c|]; [|done]. simpl.
    by destruct Hnf as (_ & _ & -> & _). }
  destruct (runs_setConfiguration env config st Hok) as [tr H].
  { intros [Hm _]. by rewrite Hmap in Hm. }
  { intros [Hu _]. congruence. }
  eexists. eexists. split; [exact H|]. simpl.
  unfold resolved_heap, rates_heap.
  rewrite !overrides_unset
    by (apply Hint; unfold fixed_names; rewrite !elem_of_cons; auto 10).
  rewrite Htoks. simpl. rewrite app_nil_r.
  unfold resolved_map. rewrite Hmap, Htoks. simpl.
  unfold complete. rewrite !fmap_empty.
  unfold resolved_ip, resolved_token, resolved_debug, resolved_adapter,
    resolved_writer, effective.
  rewrite Hredis, (Hbool envKeyDebug)
    by (unfold fixed_names; rewrite !elem_of_cons; auto 10).
  destruct config as [c|]; simpl.
  - destruct Hnf as (H1 & H2 & _ & H4 & H5 & H6). rewrite H1, H2, H4, H5, H6. simpl.
    rewrite (list_lookup_middle (heap st) [mkRate 200 500] (mkRate 100 1000)) by done.
    rewrite lookup_app_r by lia.
    replace (S (length (heap st)) - length (heap st))%nat with 1%nat by lia.
    by destruct (DisableEnvs c).
  - rewrite (list_lookup_middle (heap st) [mkRate 200 500] (mkRate 100 1000)) by done.
    rewrite lookup_app_r by lia.
    by replace (S (length (heap st)) - length (heap st))%nat with 1%nat by lia.
Qed.

Lemma setConfiguration_default_policy_witness :
  ∃ c' st',
    setConfiguration env_other (Some config_disabled) own_state = Ok (c', st') ∧
    v_ip (values (heap st') c') = Some (mkRate 100 1000) ∧
    v_token (values (heap st') c') = Some (mkRate 200 500) ∧
    v_tokens (values (heap st') c') = Some ∅ ∧
    Debug c' = false ∧
    adapter_kind <$> StorageAdapter c' = Some MemoryStorage ∧
    writer_kind <$> ResponseWriter c' = Some DefaultWriter.
Proof.
  apply (setConfiguration_default_policy env_other (Some config_disabled) own_state).
  - intros name [v Hv]. unfold env_other in Hv.
    repeat (apply lookup_insert_Some in Hv as [[<- _]|[_ Hv]]; [reflexivity|]).
    by rewrite lookup_empty in Hv.
  - intros name [v Hv]. unfold env_other in Hv.
    repeat (apply lookup_insert_Some in Hv as [[<- _]|[_ Hv]]; [reflexivity|]).
    by rewrite lookup_empty in Hv.
  - repeat split.
Defined.
